(** * ebltable: optical depth from tabulated EBL models

    A shallow embedding of [ebltable/tau_from_model.py] (class [OptDepth]).

    The numeric carrier (numpy's float64) and the numeric library routines the
    class calls ([np.log10], [np.exp], [np.log], [np.linspace], FITPACK's
    surface fit and evaluation behind [RectBivariateSpline]) are kept abstract:
    they are parameters of the development.  What is embedded is the code of
    the class itself: argument normalisation, the range warning, sorting and
    scattering by [argsort], squeezing, the three grid setters and the loop of
    [opt_depth_Ebin] with [opt_depth] on the 2-D arrays it passes; and the
    two readers of text tables, [readascii] and [readmodel], over an abstract
    host ([os.environ] and [np.loadtxt]).  Where the code depends on it, the
    behaviour of the libraries at its borders is written out: FITPACK refuses
    to evaluate a surface on an axis that is not sorted, and numpy tests the
    shapes of an assignment.  The FITS reader and writer rest on astropy's
    tables and are not embedded. *)

From Stdlib Require Import QArith Lia String Ascii.
From stdpp Require Import base list sorting.

(** ** numpy arrays as the class uses them *)

(** An [ndarray] of dimension 0, 1 or 2. *)
Inductive ndarray (R : Type) : Type :=
  | A0 (x : R)
  | A1 (v : list R)
  | A2 (m : list (list R)).
Arguments A0 {R} x.
Arguments A1 {R} v.
Arguments A2 {R} m.

Module Np.
Section Arrays.
Context {R : Type}.
(** [leb a b] is the comparison [a <= b] that the sort uses. *)
Variable leb : R → R → bool.

(** Insertion of an (index, value) pair into a list ordered by value; a pair
    goes after the pairs whose value is not larger, so the order of equal
    values is the order of their indices. *)
Fixpoint insert_by (p : nat * R) (l : list (nat * R)) : list (nat * R) :=
  match l with
  | [] => [p]
  | q :: l' => if leb q.2 p.2 then q :: insert_by p l' else p :: q :: l'
  end.

Definition sort_pairs (l : list (nat * R)) : list (nat * R) :=
  foldl (λ acc p, insert_by p acc) [] l.

(** [enumerate v]: the elements of [v] with their positions. *)
Definition enumerate (v : list R) : list (nat * R) := zip (seq 0 (length v)) v.

(** [np.argsort(v)]: the positions of [v], ordered by the value they hold. *)
Definition argsort (v : list R) : list nat := (sort_pairs (enumerate v)).*1.

(** [np.sort(v)]: a sorted copy of [v]. *)
Definition sort (v : list R) : list R := (sort_pairs (enumerate v)).*2.

(** [np.zeros((r, c))]. *)
Definition zeros (zero : R) (r c : nat) : list (list R) :=
  replicate r (replicate c zero).

(** [m.transpose()] for a matrix of [c] columns. *)
Definition transpose (c : nat) (m : list (list R)) : list (list R) :=
  (λ j, omap (λ row : list R, row !! j) m) <$> seq 0 c.

(** [base[idx] = vals] with an index array: [base[idx[a]] = vals[a]] for
    each [a] in turn. *)
Definition scatter {A : Type} (idx : list nat) (vals : list A) (base : list A)
  : list A :=
  foldl (λ acc p, <[p.1 := p.2]> acc) base (zip idx vals).

(** [base[:, idx] = vals]: the same assignment in every row. *)
Definition scatter_cols (idx : list nat) (vals base : list (list R))
  : list (list R) :=
  zip_with (λ brow vrow, scatter idx vrow brow) base vals.

(** [np.squeeze(m)] of an [r] x [c] matrix: every axis of length one is
    removed. *)
Definition squeeze (r c : nat) (m : list (list R)) : ndarray R :=
  match r, c with
  | 1, 1 => match m with [[x]] => A0 x | _ => A2 m end
  | 1, _ => match m with [row] => A1 row | _ => A2 m end
  | _, 1 => A1 (omap (λ row : list R, row !! 0) m)
  | _, _ => A2 m
  end.

(** [a.ndim] and the entries of [a]. *)
Definition ndim (a : ndarray R) : nat :=
  match a with
  | A0 _ => 0
  | A1 _ => 1
  | A2 _ => 2
  end.


(** [a.reshape((r, c))] for an array that [squeeze] made of an [r] x [c]
    matrix. *)
Definition reshape (r : nat) (a : ndarray R) : list (list R) :=
  match a with
  | A0 x => [[x]]
  | A1 v => if r =? 1 then [v] else (λ x, [x]) <$> v
  | A2 m => m
  end.

(** [v[p]] with an index array [p]. *)
Definition index {A : Type} (v : list A) (p : list nat) : list A :=
  omap (λ i, v !! i) p.

(** Undoing [v[p]]: entry [a] goes back to position [p[a]]. *)
Definition unpermute {A : Type} (p : list nat) (v : list A) : list A :=
  scatter p v v.

Definition unpermute2 (pr pc : list nat) (m : list (list R)) : list (list R) :=
  unpermute pr (unpermute pc <$> m).
End Arrays.
End Np.

(** ** The Python store *)

Inductive exn : Set := ValueError | IndexError | TypeError.
Inductive warning : Set := RuntimeWarning.

Inductive outcome (A : Type) : Type :=
  | Ok (a : A)
  | Raise (e : exn).
Arguments Ok {A} a.
Arguments Raise {A} e.

Definition loc := nat.

(** An argument of [opt_depth]: a Python scalar, a reference to a Python
    [list] or a reference to a 1-D [np.ndarray]. *)
Inductive pyarg (R : Type) : Type :=
  | PyScalar (x : R)
  | PyList (l : loc)
  | NpArray (l : loc).
Arguments PyScalar {R} x.
Arguments PyList {R} l.
Arguments NpArray {R} l.

(** ** What the class takes from numpy and scipy *)

(** float64 and the numpy and scipy routines on it that the class calls:
    comparison, [0.], [1e3], [10.], product, quotient, [np.log10], [np.log],
    [np.exp], [np.power], [np.linspace] and [scipy.integrate.simps(y, x)] on
    one row.

    Three laws of the comparisons come with them, which hold of float64 with
    its nan (every comparison with nan is false): [a < b] gives [a <= b];
    [a <= b] excludes [b < a]; and the conversion of an energy in TeV to the
    logarithm of its value in GeV, [np.log10(e * 1e3)], does not put one
    value below another that it was not below. *)
Class Float64 (R : Type) : Type := {
  leb : R → R → bool;
  ltb : R → R → bool;
  zero : R;
  e3 : R;
  ten : R;
  mul : R → R → R;
  div : R → R → R;
  log10 : R → R;
  ln : R → R;
  exp : R → R;
  power : R → R → R;
  linspace : R → R → nat → list R;
  simps : list R → list R → R;
  lt_le : ∀ a b, ltb a b = true → leb a b = true;
  le_not_gt : ∀ a b, leb a b = true → ltb b a = false;
  log10_e3_monotone :
    ∀ a b, ltb b a = false → ltb (log10 (mul b e3)) (log10 (mul a e3)) = false
}.

(** FITPACK behind [RectBivariateSpline]: the fit (which may refuse its data)
    and the evaluation of a fitted surface at one point; and behind
    [UnivariateSpline(x, y, s=0, k=1, ext='extrapolate')]. *)
Class Fitpack (R : Type) : Type := {
  Spline : Type;
  regrid : list R → list R → list (list R) → nat → nat → option Spline;
  bispev : Spline → R → R → R;
  curfit : list R → list R → option (R → R)
}.

Section Model.
Context {R : Type} {F : Float64 R} {K : Fitpack R}.

(** An instance of the class: three references to arrays and the surface. *)
Record OptDepth : Type := mkOptDepth {
  _z : loc;
  _logEGeV : loc;
  _tau : loc;
  tauSpline : Spline
}.

Inductive cell : Type :=
  | Arr (a : ndarray R)
  | Obj (o : OptDepth).

Record world : Type := mkWorld {
  heap : list cell;
  warnings : list warning
}.

Definition M (A : Type) : Type := world → outcome A * world.

Definition ret {A} (a : A) : M A := λ w, (Ok a, w).
Definition raise {A} (e : exn) : M A := λ w, (Raise e, w).
Definition bind {A B} (m : M A) (f : A → M B) : M B :=
  λ w, match m w with
       | (Ok a, w') => f a w'
       | (Raise e, w') => (Raise e, w')
       end.
Definition lift {A} (o : outcome A) : M A := λ w, (o, w).

Notation "x <- m ;; k" := (bind m (λ x, k))
  (at level 100, m at next level, right associativity).
Notation "m ;; k" := (bind m (λ _, k))
  (at level 100, right associativity).

Definition alloc (c : cell) : M loc :=
  λ w, (Ok (length (heap w)), mkWorld (heap w ++ [c]) (warnings w)).
Definition load (l : loc) : M cell :=
  λ w, match heap w !! l with
       | Some c => (Ok c, w)
       | None => (Raise TypeError, w)
       end.
Definition store (l : loc) (c : cell) : M unit :=
  λ w, (Ok tt, mkWorld (<[l := c]> (heap w)) (warnings w)).
Definition warn (x : warning) : M unit :=
  λ w, (Ok tt, mkWorld (heap w) (warnings w ++ [x])).

Definition load1 (l : loc) : M (list R) :=
  c <- load l;; match c with Arr (A1 v) => ret v | _ => raise TypeError end.
Definition load2 (l : loc) : M (list (list R)) :=
  c <- load l;; match c with Arr (A2 m) => ret m | _ => raise TypeError end.
Definition loadObj (l : loc) : M OptDepth :=
  c <- load l;; match c with Obj o => ret o | _ => raise TypeError end.

(** [RectBivariateSpline(x, y, z, kx=kx, ky=ky)]: scipy refuses a [z] whose
    shape is not [(x.size, y.size)] with a [ValueError] before it calls
    FITPACK, and turns a refusal of FITPACK into a [ValueError] too. *)
Definition RBSpline (x y : list R) (z : list (list R)) (kx ky : nat)
  : outcome Spline :=
  if negb (length x =? length z) then Raise ValueError
  else if negb (forallb (λ row : list R, length row =? length y) z)
  then Raise ValueError
  else match regrid x y z kx ky with
       | Some s => Ok s
       | None => Raise ValueError
       end.

(** FITPACK's test of an axis it is to evaluate on ([bispev], error 10): no
    entry is below the entry before it. *)
Fixpoint no_descent (x : list R) : bool :=
  match x with
  | a :: ((b :: _) as x') => negb (ltb b a) && no_descent x'
  | _ => true
  end.

(** Calling the surface on two 1-D arrays evaluates it on their grid; FITPACK
    refuses an axis that is not sorted, and scipy turns the refusal into a
    [ValueError]. *)
Definition RBSpline_call (s : Spline) (x y : list R)
  : outcome (list (list R)) :=
  if no_descent x && no_descent y
  then Ok ((λ xi, bispev s xi <$> y) <$> x)
  else Raise ValueError.

(** The surface called with a 2-D array [x]: FITPACK's wrapper takes an array
    of more than one axis as the 1-D array of its entries when at most one
    of its axes is longer than one, and refuses it otherwise. *)
Definition RBSpline_call_2d (s : Spline) (x : list (list R)) (y : list R)
  : outcome (list (list R)) :=
  if (length x <=? 1) || forallb (λ row : list R, length row <=? 1) x
  then RBSpline_call s (concat x) y
  else Raise ValueError.

(** What an assignment [target[...] = value] makes of the value along an axis
    on which the target has length [n] (broadcasting): the value as it is
    when it has length [n] there, its one entry repeated when it has length
    one, and a [ValueError] otherwise. *)
Definition broadcast {A : Type} (n : nat) (l : list A) : outcome (list A) :=
  if length l =? n then Ok l
  else match l with
       | [x] => Ok (replicate n x)
       | _ => Raise ValueError
       end.

Fixpoint broadcast_rows (c : nat) (m : list (list R))
  : outcome (list (list R)) :=
  match m with
  | [] => Ok []
  | row :: m' =>
      match broadcast c row, broadcast_rows c m' with
      | Ok row', Ok m'' => Ok (row' :: m'')
      | Raise e, _ => Raise e
      | _, Raise e => Raise e
      end
  end.

(** A matrix as the value of an assignment to a target of [r] rows of [c]
    entries. *)
Definition broadcast2 (r c : nat) (m : list (list R))
  : outcome (list (list R)) :=
  match broadcast_rows c m with
  | Ok m' => broadcast r m'
  | Raise e => Raise e
  end.

(** [base[:, idx] = vals] with a 2-D index array [idx]: the target has one
    axis more than [base], of the shape of [idx] in place of the columns, and
    the matrix [vals] is taken along its last two axes; numpy tests the
    shapes, then the indices, and then entry [(a, b)] of the value goes to
    position [idx[a][b]] of every row of [base]. *)
Definition assign_cols_2d (idx : list (list nat)) (vals base : list (list R))
  : outcome (list (list R)) :=
  let S := match idx with [] => 0 | irow :: _ => length irow end in
  match broadcast2 (length idx) S vals with
  | Raise e => Raise e
  | Ok v =>
      if forallb (λ brow : list R,
                    forallb (λ j, j <? length brow) (concat idx)) base
      then Ok ((λ brow, Np.scatter (concat idx) (concat v) brow) <$> base)
      else Raise IndexError
  end.

(** [UnivariateSpline(x, y, s=0, k=1, ext='extrapolate')]. *)
Definition USpline (x y : list R) : outcome (R → R) :=
  match curfit x y with
  | Some f => Ok f
  | None => Raise ValueError
  end.

(** ** The class [OptDepth] *)

(** [OptDepth.__init__(self, z, EGeV, tau, kx, ky)]; the instance comes into
    being when the constructor returns. *)
Definition init (z EGeV tau : loc) (kx ky : nat) : M loc :=
  zv <- load1 z;;
  lz <- alloc (Arr (A1 zv));;
  Ev <- load1 EGeV;;
  lE <- alloc (Arr (A1 (log10 <$> Ev)));;
  tv <- load2 tau;;
  lt <- alloc (Arr (A2 tv));;
  x <- load1 lE;;
  y <- load1 lz;;
  t <- load2 lt;;
  s <- lift (RBSpline x y t kx ky);;
  alloc (Obj (mkOptDepth lz lE lt s)).

(** The property getters. *)
Definition get_z (self : loc) : M loc := o <- loadObj self;; ret (_z o).
Definition get_logEGeV (self : loc) : M loc :=
  o <- loadObj self;; ret (_logEGeV o).
Definition get_tau (self : loc) : M loc := o <- loadObj self;; ret (_tau o).

(** The surface is rebuilt from the three fields as they are now. *)
Definition rebuild (self : loc) (kx ky : nat) : M unit :=
  o <- loadObj self;;
  x <- load1 (_logEGeV o);;
  y <- load1 (_z o);;
  t <- load2 (_tau o);;
  s <- lift (RBSpline x y t kx ky);;
  store self (Obj (mkOptDepth (_z o) (_logEGeV o) (_tau o) s)).

(** The property setters; an assignment [m.z = v] passes no degrees, so
    [kx = ky = 2]. *)
Definition set_z (self : loc) (z : loc) : M unit :=
  o <- loadObj self;;
  store self (Obj (mkOptDepth z (_logEGeV o) (_tau o) (tauSpline o)));;
  rebuild self 2 2.

Definition set_logEGeV (self : loc) (EGeV : loc) : M unit :=
  o <- loadObj self;;
  Ev <- load1 EGeV;;
  lE <- alloc (Arr (A1 (log10 <$> Ev)));;
  store self (Obj (mkOptDepth (_z o) lE (_tau o) (tauSpline o)));;
  rebuild self 2 2.

Definition set_tau (self : loc) (tau : loc) : M unit :=
  o <- loadObj self;;
  store self (Obj (mkOptDepth (_z o) (_logEGeV o) tau (tauSpline o)));;
  rebuild self 2 2.

(** Argument normalisation in [opt_depth]: a scalar becomes a new array of
    one element, a list a new array, an array is used as it is. *)
Definition normalise (a : pyarg R) : M loc :=
  match a with
  | PyScalar x => alloc (Arr (A1 [x]))
  | PyList l => v <- load1 l;; alloc (Arr (A1 v))
  | NpArray l => ret l
  end.

(** [self._z[0]]. *)
Definition first (grid : list R) : M R :=
  match grid with
  | [] => raise IndexError
  | z0 :: _ => ret z0
  end.

(** [OptDepth.opt_depth(self, z, ETeV)] for scalars, lists and 1-D arrays.
    [np.argsort], [np.sort], [np.log10] and the product with [1e3] return
    new arrays that nothing writes to; they are values here.  [result] and
    [tt] are written to and live in the store. *)
Definition opt_depth (self : loc) (z ETeV : pyarg R) : M (ndarray R) :=
  lE <- normalise ETeV;;
  lz <- normalise z;;
  o <- loadObj self;;
  zv <- load1 lz;;
  grid <- load1 (_z o);;
  z0 <- first grid;;
  (if existsb (λ x, ltb x z0) zv then warn RuntimeWarning else ret ());;
  Ev <- load1 lE;;
  result <- alloc (Arr (A2 (Np.zeros zero (length zv) (length Ev))));;
  tt <- alloc (Arr (A2 (Np.zeros zero (length zv) (length Ev))));;
  let args_z := Np.argsort leb zv in
  let args_E := Np.argsort leb Ev in
  let x := log10 <$> ((λ e, mul e e3) <$> Np.sort leb Ev) in
  X <- lift (RBSpline_call (tauSpline o) x (Np.sort leb zv));;
  let vals := Np.transpose (length zv) X in
  t0 <- load2 tt;;
  store tt (Arr (A2 (Np.scatter args_z vals t0)));;
  t1 <- load2 tt;;
  r0 <- load2 result;;
  store result (Arr (A2 (Np.scatter_cols args_E t1 r0)));;
  r1 <- load2 result;;
  ret (Np.squeeze (length zv) (length Ev) r1).

(** [OptDepth.opt_depth_inverse(self, z, tau)]: [z] and [tau] are floats. *)
Definition opt_depth_inverse (self : loc) (z tau : R) : M R :=
  o <- loadObj self;;
  logE <- load1 (_logEGeV o);;
  X <- lift (RBSpline_call (tauSpline o) logE [z]);;
  let curve := omap (λ row : list R, row !! 0) X in
  logE' <- load1 (_logEGeV o);;
  Enew <- lift (USpline curve logE');;
  ret (power ten (Enew tau)).

(** [OptDepth.opt_depth(self, z, ETeV)] for a float [z] and a 2-D array
    [ETeV], which [opt_depth_Ebin] passes: the same statements.  [ETeV] is
    neither a scalar nor a list and is used as it is; [ETeV.shape[0]] is the
    number of its rows; [np.argsort] and [np.sort] work along the last axis,
    row by row; the two assignments meet shapes that need not agree. *)
Definition opt_depth_2d (self : loc) (z : R) (ETeV : list (list R))
  : M (ndarray R) :=
  lz <- alloc (Arr (A1 [z]));;
  o <- loadObj self;;
  zv <- load1 lz;;
  grid <- load1 (_z o);;
  z0 <- first grid;;
  (if existsb (λ x, ltb x z0) zv then warn RuntimeWarning else ret ());;
  result <- alloc (Arr (A2 (Np.zeros zero (length zv) (length ETeV))));;
  tt <- alloc (Arr (A2 (Np.zeros zero (length zv) (length ETeV))));;
  let args_z := Np.argsort leb zv in
  let args_E := Np.argsort leb <$> ETeV in
  let x := (λ row : list R,
              log10 <$> ((λ e, mul e e3) <$> Np.sort leb row)) <$> ETeV in
  X <- lift (RBSpline_call_2d (tauSpline o) x (Np.sort leb zv));;
  t0 <- load2 tt;;
  vals <- lift (broadcast2 (length args_z) (length ETeV)
                  (Np.transpose (length zv) X));;
  store tt (Arr (A2 (Np.scatter args_z vals t0)));;
  t1 <- load2 tt;;
  r0 <- load2 result;;
  r <- lift (assign_cols_2d args_E t1 r0);;
  store result (Arr (A2 r));;
  r1 <- load2 result;;
  ret (Np.squeeze (length zv) (length ETeV) r1).

(** [self.opt_depth] is looked up on the instance when it is called: the
    loop of [opt_depth_Ebin] is written over the method it finds there,
    which is [opt_depth_2d] for an instance of the class itself. *)
Variable self_opt_depth : loc → R → list (list R) → M (ndarray R).

(** [np.exp] of a list of 1-D arrays: a 2-D array with one row each. *)
Definition exp2 (m : list (list R)) : list (list R) :=
  (λ row : list R, exp <$> row) <$> m.

(** The loop of [opt_depth_Ebin]: one round per bin edge but the last;
    [logE_array] and [t_array] are the two lists the loop appends to. *)
Fixpoint Ebin_loop (self : loc) (z : R) (Ebin : list R) (Esteps : nat)
    (logE_array : list (list R)) (t_array : list (ndarray R))
  : M (list (list R) * list (ndarray R)) :=
  match Ebin with
  | E :: ((E' :: _) as rest) =>
      let logE_array := logE_array ++ [linspace (ln E) (ln E') Esteps] in
      t <- self_opt_depth self z (exp2 logE_array);;
      Ebin_loop self z rest Esteps logE_array (t_array ++ [t])
  | _ => ret (logE_array, t_array)
  end.

(** The grids of the bins, in the order of the bins: [Esteps] points from
    [log E_i] to [log E_(i+1)] for each pair of neighbouring edges. *)
Fixpoint bin_grids (Ebin : list R) (Esteps : nat) : list (list R) :=
  match Ebin with
  | E :: ((E' :: _) as rest) =>
      linspace (ln E) (ln E') Esteps :: bin_grids rest Esteps
  | _ => []
  end.

(** The prefixes of a list that are not empty, the shortest first. *)
Definition prefixes {A : Type} (l : list A) : list (list A) :=
  (λ i, take (S i) l) <$> seq 0 (length l).

(** [self.opt_depth(z, a)] for each 2-D array [a] of a list in turn. *)
Fixpoint calls (self : loc) (z : R) (args : list (list (list R)))
  : M (list (ndarray R)) :=
  match args with
  | [] => ret []
  | a :: args' =>
      t <- self_opt_depth self z a;;
      ts <- calls self z args';;
      ret (t :: ts)
  end.

(** [np.array(t_array)] when every entry is a 1-D array: the matrix of the
    rows, as the products below take it.  Entries of another rank give an
    array of another rank, on which the products are not the row-wise ones;
    that case is not modelled and ends here with a [ValueError]. *)
Fixpoint stack (ts : list (ndarray R)) : outcome (list (list R)) :=
  match ts with
  | [] => Ok []
  | A1 v :: ts' =>
      match stack ts' with
      | Ok m => Ok (v :: m)
      | Raise e => Raise e
      end
  | _ :: _ => Raise ValueError
  end.

Definition mul2 (a b : list (list R)) : list (list R) :=
  zip_with (zip_with mul) a b.

(** [OptDepth.opt_depth_Ebin(self, z, Ebin, func, params, Esteps)];
    [func] is the spectrum with [params] applied. *)
Definition opt_depth_Ebin (self : loc) (z : R) (Ebin : list R)
    (func : list (list R) → list (list R)) (Esteps : nat) : M (list R) :=
  r <- Ebin_loop self z Ebin Esteps [] [];;
  let logE_array := r.1 in
  t_array <- lift (stack r.2);;
  let E := exp2 logE_array in
  ret (zip_with div
         (zip_with simps (mul2 (mul2 (func E) t_array) E) logE_array)
         (zip_with simps (mul2 (func E) E) logE_array)).

(** ** Notions the statements below are written with *)

(** The 1-D array an argument of [opt_depth] stands for, in a given heap. *)
Definition arg_value (h : list cell) (a : pyarg R) : option (list R) :=
  match a with
  | PyScalar x => Some [x]
  | PyList l | NpArray l =>
      match h !! l with
      | Some (Arr (A1 v)) => Some v
      | _ => None
      end
  end.

(** The warnings [opt_depth] issues for the requested redshifts [zv] when the
    stored redshift grid starts with [z0]. *)
Definition range_warning (z0 : R) (zv : list R) : list warning :=
  if existsb (λ x, ltb x z0) zv then [RuntimeWarning] else [].

(** The surface [s] at redshift [zi] and energy [e] given in TeV. *)
Definition tau_at (s : Spline) (zi e : R) : R := bispev s (log10 (mul e e3)) zi.

(** The Nz x NE matrix of the surface values, rows in the order of [zv] and
    columns in the order of [Ev]. *)
Definition tau_matrix (s : Spline) (zv Ev : list R) : list (list R) :=
  (λ zi, tau_at s zi <$> Ev) <$> zv.



(** The matrix [t] has [n] rows of [m] entries: its shape is [(n, m)]. *)
Definition has_shape (t : list (list R)) (n m : nat) : Prop :=
  length t = n ∧ Forall (λ row, length row = m) t.

(** The computation [m] leaves the first [n] cells of the store in place and
    unchanged: it may read them, and it writes only beyond them. *)
Definition preserves {A : Type} (n : nat) (m : M A) : Prop :=
  ∀ w, n ≤ length (heap w) →
    take n (heap (m w).2) = take n (heap w) ∧ n ≤ length (heap (m w).2).

(** The surface of the instance is the one its three grids give with the
    default degrees. *)
Definition consistent (w : world) (self : loc) : Prop :=
  ∃ o x y t,
    heap w !! self = Some (Obj o) ∧
    heap w !! _logEGeV o = Some (Arr (A1 x)) ∧
    heap w !! _z o = Some (Arr (A1 y)) ∧
    heap w !! _tau o = Some (Arr (A2 t)) ∧
    RBSpline x y t 2 2 = Ok (tauSpline o).
End Model.

(** ** Reading a model from a text file *)

(** What the readers raise: an exception of the class, or one of their
    own. *)
Inductive pyexn : Set :=
  | Core (e : exn)
  | NameError
  | KeyError
  | ZeroDivisionError
  | IOError.

Inductive result (A : Type) : Type :=
  | Done (a : A)
  | Fail (e : pyexn).
Arguments Done {A} a.
Arguments Fail {A} e.

(** The host of the program: [os.environ], and the files as [np.loadtxt]
    reads them, all columns or the columns [usecols]. *)
Class Host (R : Type) : Type := {
  environ : string → option string;
  loadtxt : string → result (ndarray R);
  loadtxt_usecols : string → list nat → result (ndarray R)
}.

(** [os.path.join(a, b)] for a relative [b]. *)
Definition path_join (a b : string) : string :=
  if String.eqb a "" then b
  else match String.get (String.length a - 1) a with
       | Some "/"%char => String.append a b
       | _ => String.append a (String.append "/" b)
       end.

Section Readers.
Context {R : Type} {F : Float64 R} {K : Fitpack R} {H : Host R}.

Definition IO (A : Type) : Type := world → result A * world.

Definition io_ret {A} (a : A) : IO A := λ w, (Done a, w).
Definition io_fail {A} (e : pyexn) : IO A := λ w, (Fail e, w).
Definition io_bind {A B} (m : IO A) (f : A → IO B) : IO B :=
  λ w, match m w with
       | (Done a, w') => f a w'
       | (Fail e, w') => (Fail e, w')
       end.
Definition io_lift {A} (r : result A) : IO A := λ w, (r, w).
(** A computation of the class, run by a reader. *)
Definition io_of {A} (m : M A) : IO A :=
  λ w, match m w with
       | (Ok a, w') => (Done a, w')
       | (Raise e, w') => (Fail (Core e), w')
       end.

Notation "x <- m ;; k" := (io_bind m (λ x, k))
  (at level 100, m at next level, right associativity).

(** [data[:, j]] of a 2-D array given by its rows. *)
Definition column (j : nat) (m : list (list R)) : result (list R) :=
  match m with
  | [] => Done []
  | row :: _ =>
      if j <? length row then Done (omap (λ r : list R, r !! j) m)
      else Fail (Core IndexError)
  end.

(** [data[0,1:]]: the first row without its first entry. *)
Definition first_row_tail (data : ndarray R) : result (list R) :=
  match data with
  | A2 (row :: _) => Done (drop 1 row)
  | _ => Fail (Core IndexError)
  end.

(** [data[1:,1:]]. *)
Definition lower_block (data : ndarray R) : result (list (list R)) :=
  match data with
  | A2 m => Done (drop 1 <$> drop 1 m)
  | _ => Fail (Core IndexError)
  end.

(** [data[1:,0]]: the first column without its first entry. *)
Definition first_column_tail (data : ndarray R) : result (list R) :=
  match data with
  | A2 m =>
      match column 0 m with
      | Done c => Done (drop 1 c)
      | Fail e => Fail e
      end
  | _ => Fail (Core IndexError)
  end.

(** An array that a slice or an arithmetic operation has made is a new
    object of the store. *)
Definition new_array (r : result (ndarray R)) : IO loc :=
  a <- io_lift r;; io_of (alloc (Arr a)).

Definition map_result {A B} (f : A → B) (r : result A) : result B :=
  match r with
  | Done a => Done (f a)
  | Fail e => Fail e
  end.

(** The part that the table models share: [z = data[0,1:]],
    [tau = data[1:,1:]], [EGeV] computed by [energy] from [data[1:,0]], and
    [OptDepth(z, EGeV, tau)]. *)
Definition read_table (file_name : string) (energy : R → R) : IO loc :=
  data <- io_lift (loadtxt file_name);;
  z <- new_array (map_result A1 (first_row_tail data));;
  tau <- new_array (map_result A2 (lower_block data));;
  EGeV <- new_array
            (map_result (λ c, A1 (energy <$> c)) (first_column_tail data));;
  io_of (init z EGeV tau 2 2).

(** [OptDepth.readascii(file_name)]. *)
Definition readascii (file_name : string) : IO loc :=
  data <- io_lift (loadtxt file_name);;
  z <- new_array (map_result A1 (first_row_tail data));;
  tau <- new_array (map_result A2 (lower_block data));;
  EGeV <- new_array (map_result A1 (first_column_tail data));;
  io_of (init z EGeV tau 2 2).

(** The branch of [readmodel] for the model of Franceschini: the energies
    and the tau array are made ([/] on two integers is the integer division
    of Python 2), and then the statement that makes [z] names [self], which
    a static method does not have. *)
Definition read_franceschini (file_name : string) : IO loc :=
  data <- io_lift (loadtxt_usecols file_name [0; 2]);;
  EGeV <- new_array
            (match data with
             | A2 m => map_result (λ c, A1 ((λ e, mul e e3) <$> take 50 c))
                         (column 0 m)
             | _ => Fail (Core IndexError)
             end);;
  n <- (λ w, match heap w !! EGeV with
             | Some (Arr (A1 v)) => (Done (length v), w)
             | _ => (Fail (Core TypeError), w)
             end);;
  rows <- io_lift (match data with
                   | A2 m => map_result (λ c : list R, length c) (column 1 m)
                   | _ => Fail (Core IndexError)
                   end);;
  tau <- (if n =? 0 then io_fail ZeroDivisionError
          else io_of (alloc (Arr (A2 (Np.zeros zero n (rows / n))))));;
  io_fail NameError.

(** [OptDepth.readmodel(model)].  With [EBL_FILE_PATH] unset, the handler of
    the [KeyError] formats its warning with the name [path], which the
    module does not bind. *)
Definition readmodel (model : string) : IO loc :=
  match environ "EBL_FILE_PATH" with
  | None => io_fail NameError
  | Some ebl_file_path =>
      if String.eqb model "kneiske" || String.eqb model "dominguez"
         || String.eqb model "finke"
      then
        let file_name :=
          if String.eqb model "kneiske"
          then path_join ebl_file_path "tau_ebl_cmb_kneiske.dat"
          else if String.eqb model "dominguez"
          then path_join ebl_file_path "tau_dominguez10.dat"
          else path_join ebl_file_path "tau_modelC_Finke.txt" in
        data <- io_lift (loadtxt file_name);;
        z <- new_array (map_result A1 (first_row_tail data));;
        tau <- new_array (map_result A2 (lower_block data));;
        EGeV <- new_array
                  (map_result
                     (λ c, A1 ((if String.eqb model "kneiske"
                                then power ten else λ e, mul e e3) <$> c))
                     (first_column_tail data));;
        io_of (init z EGeV tau 2 2)
      else if String.eqb model "franceschini"
      then read_franceschini (path_join ebl_file_path "tau_fran08.dat")
      else if String.eqb model "inoue"
      then read_table (path_join ebl_file_path "tau_gg_baseline.dat")
             (λ e, mul e e3)
      else if String.eqb model "gilmore"
      then read_table (path_join ebl_file_path "opdep_fiducial.dat")
             (λ e, div e e3)
      else io_fail (Core ValueError)
  end.

(** ** Notions the statements about the readers are written with *)

(** The table [data] with another entry in its corner [[0,0]]. *)
Definition set_corner (c : R) (data : ndarray R) : ndarray R :=
  match data with
  | A2 ((_ :: row) :: m) => A2 ((c :: row) :: m)
  | _ => data
  end.

(** A row with [conv] applied to its first entry. *)
Definition convert_row (conv : R → R) (row : list R) : list R :=
  match row with
  | e :: r => conv e :: r
  | [] => []
  end.

(** The table [data] with [conv] applied to the energies, the entries of its
    first column below the corner. *)
Definition convert_energies (conv : R → R) (data : ndarray R) : ndarray R :=
  match data with
  | A2 (row0 :: rows) => A2 (row0 :: (convert_row conv <$> rows))
  | _ => data
  end.

(** The table models of [readmodel]: name, file, and what turns the first
    column of the file into energies in GeV. *)
Definition table_models : list (string * (string * (R → R))) :=
  [("kneiske"%string, ("tau_ebl_cmb_kneiske.dat"%string, power ten));
   ("dominguez"%string, ("tau_dominguez10.dat"%string, λ e, mul e e3));
   ("finke"%string, ("tau_modelC_Finke.txt"%string, λ e, mul e e3));
   ("inoue"%string, ("tau_gg_baseline.dat"%string, λ e, mul e e3));
   ("gilmore"%string, ("opdep_fiducial.dat"%string, λ e, div e e3))].

(** The names [readmodel] knows. *)
Definition model_names : list string :=
  ["kneiske"; "dominguez"; "finke"; "franceschini"; "inoue"; "gilmore"]%string.
End Readers.

(** ** An instance to run the class on

    Floats as expressions: rationals are literals, and what numpy and FITPACK
    would compute is left as an expression of its arguments.  Expressions
    are compared where they show their order: literals and their products as
    rationals, and the logarithms of positive ones as their arguments. *)
Module Sym.

#[local] Unset Elimination Schemes.
Inductive num : Type :=
  | Lit (q : Q)
  | Times (a b : num)
  | Over (a b : num)
  | Log10 (a : num)
  | Ln (a : num)
  | Exp (a : num)
  | Power (a b : num)
  | Linspace (a b : num) (n k : nat)
  | Simps (y x : list num)
  | Bispev (x y : list num) (z : list (list num)) (kx ky : nat) (a b : num)
  | Splev (x y : list num) (t : num).

#[local] Set Elimination Schemes.

(** The rational an expression of literals and products stands for. *)
Fixpoint value (a : num) : option Q :=
  match a with
  | Lit q => Some q
  | Times a b =>
      match value a, value b with
      | Some p, Some q => Some (p * q)%Q
      | _, _ => None
      end
  | _ => None
  end.

(** Where an expression stands in the order of the floats, as far as the
    expression shows it: a rational, or the base-10 logarithm of a positive
    rational, which is ordered as its argument is. *)
Definition key (a : num) : option (bool * Q) :=
  match a with
  | Log10 a' =>
      match value a' with
      | Some q => if Qle_bool q 0 then None else Some (true, q)
      | None => None
      end
  | _ =>
      match value a with
      | Some q => Some (false, q)
      | None => None
      end
  end.

Definition num_leb (a b : num) : bool :=
  match key a, key b with
  | Some (d, p), Some (d', q) => Bool.eqb d d' && Qle_bool p q
  | _, _ => false
  end.

Definition num_ltb (a b : num) : bool :=
  match key a, key b with
  | Some (d, p), Some (d', q) => Bool.eqb d d' && negb (Qle_bool q p)
  | _, _ => false
  end.

Lemma num_lt_le (a b : num) : num_ltb a b = true → num_leb a b = true.
Proof.
  unfold num_ltb, num_leb.
  destruct (key a) as [[d p]|], (key b) as [[d' q]|]; try done.
  intros [-> Hlt]%andb_true_iff. simpl.
  apply negb_true_iff, not_true_iff_false in Hlt.
  rewrite Qle_bool_iff in *. apply Qlt_le_weak. by apply Qnot_le_lt.
Qed.

Lemma num_le_not_gt (a b : num) : num_leb a b = true → num_ltb b a = false.
Proof.
  unfold num_ltb, num_leb.
  destruct (key a) as [[d p]|], (key b) as [[d' q]|]; try done.
  intros [_ ->]%andb_true_iff. apply andb_false_r.
Qed.


Lemma key_of_value (a : num) (q : Q) : value a = Some q → key a = Some (false, q).
Proof. intros H. destruct a; try done; unfold key; by rewrite H. Qed.

(** [np.log10(e * 1e3)] keeps the order. *)
Lemma num_log10_e3 (a b : num) :
  num_ltb b a = false →
  num_ltb (Log10 (Times b (Lit 1000))) (Log10 (Times a (Lit 1000))) = false.
Proof.
  unfold num_ltb at 2. cbn [key value].
  destruct (value b) as [pb|] eqn:Hb; [|done].
  destruct (value a) as [pa|] eqn:Ha; [|by destruct (Qle_bool _ 0)].
  unfold num_ltb. rewrite (key_of_value _ _ Ha), (key_of_value _ _ Hb). simpl.
  intros Hle%negb_false_iff.
  destruct (Qle_bool (pb * 1000)%Q 0), (Qle_bool (pa * 1000)%Q 0); try done.
  simpl. apply negb_false_iff. rewrite Qle_bool_iff in *.
  by apply Qmult_le_compat_r.
Qed.
#[global] Instance float64 : Float64 num := {
  leb := num_leb;
  ltb := num_ltb;
  zero := Lit 0;
  e3 := Lit 1000;
  ten := Lit 10;
  mul := Times;
  div := Over;
  log10 := Log10;
  ln := Ln;
  exp := Exp;
  power := Power;
  linspace a b n := Linspace a b n <$> seq 0 n;
  simps := Simps;
  lt_le := num_lt_le;
  le_not_gt := num_le_not_gt;
  log10_e3_monotone := num_log10_e3
}.



(** FITPACK fits a surface to axes that are strictly increasing. *)
Fixpoint increasing (x : list num) : bool :=
  match x with
  | a :: ((b :: _) as x') => num_ltb a b && increasing x'
  | _ => true
  end.

(** A fitted surface is the data it was fitted to; FITPACK wants more points
    than the degree on each axis. *)
Record surface : Type := mkSurface {
  sx : list num;
  sy : list num;
  sz : list (list num);
  skx : nat;
  sky : nat
}.

#[global] Instance fitpack : Fitpack num := {
  Spline := surface;
  regrid x y z kx ky :=
    if (kx <? length x)%nat && (ky <? length y)%nat
       && increasing x && increasing y
    then Some (mkSurface x y z kx ky) else None;
  bispev s a b := Bispev (sx s) (sy s) (sz s) (skx s) (sky s) a b;
  curfit x y := Some (Splev x y)
}.

(** The tables of a small model: redshifts, energies in GeV and optical
    depths, followed by arrays a caller holds; [init] then adds the three
    arrays of the instance at 11, 12 and 13 and the instance at 14. *)
Definition grid_z : list num := [Lit (1 # 10); Lit (1 # 2); Lit 1].
Definition grid_E : list num := [Lit 10; Lit 100; Lit 1000].
Definition grid_tau : list (list num) :=
  [[Lit 0; Lit 0; Lit 0];
   [Lit (1 # 10); Lit (3 # 10); Lit (1 # 2)];
   [Lit 1; Lit 2; Lit 3]].
Definition req_z : list num := [Lit (1 # 2); Lit (1 # 20); Lit 1].
Definition req_E : list num := [Lit 1; Lit (1 # 10)].
Definition short_tau : list (list num) :=
  [[Lit 0; Lit 0; Lit 0]; [Lit 1; Lit 2; Lit 3]].
Definition other_z : list num := [Lit (1 # 5); Lit (3 # 5); Lit (6 # 5)].
Definition long_z : list num := [Lit (1 # 10); Lit (1 # 2); Lit 1; Lit 2].

Definition caller : world :=
  mkWorld
    [Arr (A1 grid_z); Arr (A1 grid_E); Arr (A2 grid_tau);
     Arr (A1 req_z); Arr (A1 req_E);
     Arr (A1 (Np.index req_z [2; 0; 1])); Arr (A1 (Np.index req_E [1; 0]));
     Arr (A2 short_tau); Arr (A1 [Lit (1 # 2)]);
     Arr (A1 other_z); Arr (A1 long_z)]
    [].

Definition built : outcome loc * world := init 0 1 2 2 2 caller.
Definition model : world := built.2.
Definition self : loc := 14.
Definition fitted : surface := mkSurface (Log10 <$> grid_E) grid_z grid_tau 2 2.
Definition instance : OptDepth := mkOptDepth 11 12 13 fitted.

End Sym.

(** ** A second instance, for the inverse evaluator

    As [Sym], but the product of two literals is computed, and the 1-D
    spline fitted to a curve of surface values passes through the curve:
    the surface value at log-energy [a] goes back to [a]. *)
Module Calc.

Definition times (a b : Sym.num) : Sym.num :=
  match a, b with
  | Sym.Lit p, Sym.Lit q => Sym.Lit (Qred (p * q))
  | _, _ => Sym.Times a b
  end.

Lemma value_times (b : Sym.num) :
  match Sym.value (times b (Sym.Lit 1000)), Sym.value b with
  | Some r, Some p => r == p * 1000
  | None, None => True
  | _, _ => False
  end.
Proof.
  destruct b as [p|b1 b2| | | | | | | | |]; simpl; try done.
  - apply Qred_correct.
  - by destruct (Sym.value b1), (Sym.value b2).
Qed.

Lemma times_log10_e3 (a b : Sym.num) :
  Sym.num_ltb b a = false →
  Sym.num_ltb (Sym.Log10 (times b (Sym.Lit 1000)))
    (Sym.Log10 (times a (Sym.Lit 1000))) = false.
Proof.
  unfold Sym.num_ltb at 2. cbn [Sym.key].
  pose proof (value_times a) as Ha. pose proof (value_times b) as Hb.
  destruct (Sym.value (times b _)) as [rb|]; [|done].
  destruct (Sym.value (times a _)) as [ra|]; [|by destruct (Qle_bool _ 0)].
  destruct (Sym.value b) as [pb|] eqn:Hvb; [|done].
  destruct (Sym.value a) as [pa|] eqn:Hva; [|done].
  unfold Sym.num_ltb.
  rewrite (Sym.key_of_value _ _ Hva), (Sym.key_of_value _ _ Hvb). simpl.
  intros Hle%negb_false_iff.
  destruct (Qle_bool rb 0), (Qle_bool ra 0); try done.
  simpl. apply negb_false_iff. rewrite Qle_bool_iff in *.
  rewrite Ha, Hb. by apply Qmult_le_compat_r.
Qed.
Definition float64 : Float64 Sym.num := {|
  leb := Sym.num_leb;
  ltb := Sym.num_ltb;
  zero := Sym.Lit 0;
  e3 := Sym.Lit 1000;
  ten := Sym.Lit 10;
  mul := times;
  div := Sym.Over;
  log10 := Sym.Log10;
  ln := Sym.Ln;
  exp := Sym.Exp;
  power := Sym.Power;
  linspace a b n := Sym.Linspace a b n <$> seq 0 n;
  simps := Sym.Simps;
  lt_le := Sym.num_lt_le;
  le_not_gt := Sym.num_le_not_gt;
  log10_e3_monotone := times_log10_e3
|}.

Definition through (x y : list Sym.num) (t : Sym.num) : Sym.num :=
  match t with
  | Sym.Bispev _ _ _ _ _ a _ => a
  | _ => Sym.Splev x y t
  end.

Definition fitpack : Fitpack Sym.num := {|
  Spline := Sym.surface;
  regrid x y z kx ky :=
    if (kx <? length x)%nat && (ky <? length y)%nat
       && Sym.increasing x && Sym.increasing y
    then Some (Sym.mkSurface x y z kx ky) else None;
  bispev s a b :=
    Sym.Bispev (Sym.sx s) (Sym.sy s) (Sym.sz s) (Sym.skx s) (Sym.sky s) a b;
  curfit x y := Some (through x y)
|}.

Definition caller : world (K := fitpack) :=
  mkWorld [Arr (A1 Sym.grid_z); Arr (A1 Sym.grid_E); Arr (A2 Sym.grid_tau)] [].

(** The instance is at 6, its arrays at 3, 4 and 5. *)
Definition model : world (K := fitpack) :=
  (init (F := float64) (K := fitpack) 0 1 2 2 2 caller).2.
Definition instance : OptDepth (K := fitpack) :=
  mkOptDepth (K := fitpack) 3 4 5 Sym.fitted.

End Calc.

(** ** Files to run the readers on *)
Module Disk.

(** The table of a model: redshifts in the first row, energies in TeV in
    the first column. *)
Definition table : list (list Sym.num) :=
  [[Sym.Lit 0; Sym.Lit (1 # 10); Sym.Lit (1 # 2); Sym.Lit 1];
   [Sym.Lit (1 # 100); Sym.Lit 0; Sym.Lit 0; Sym.Lit 0];
   [Sym.Lit (1 # 10); Sym.Lit (1 # 10); Sym.Lit (3 # 10); Sym.Lit (1 # 2)];
   [Sym.Lit 1; Sym.Lit 1; Sym.Lit 2; Sym.Lit 3]].

Definition host : Host Sym.num := {|
  environ k :=
    if String.eqb k "EBL_FILE_PATH" then Some "/data"%string else None;
  loadtxt f :=
    if String.eqb f "/data/tau_dominguez10.dat" then Done (A2 table)
    else Fail IOError;
  loadtxt_usecols f cols :=
    if String.eqb f "/data/tau_fran08.dat"
    then Done (A2 [[Sym.Lit (1 # 100); Sym.Lit 0];
                   [Sym.Lit (1 # 10); Sym.Lit (1 # 10)]])
    else Fail IOError
|}.

(** The same files, and [EBL_FILE_PATH] not set. *)
Definition bare : Host Sym.num := {|
  environ k := None;
  loadtxt := loadtxt (Host := host);
  loadtxt_usecols := loadtxt_usecols (Host := host)
|}.

(** A file for [readascii]: the table with its energies in GeV. *)
Definition host_GeV : Host Sym.num := {|
  environ k := None;
  loadtxt f :=
    if String.eqb f "table_GeV.dat"
    then Done (convert_energies (λ e, mul e e3) (A2 table))
    else Fail IOError;
  loadtxt_usecols f cols := Fail IOError
|}.

Definition empty : world (K := Sym.fitpack) := mkWorld [] [].

End Disk.

(** * Laws of the array operations *)

Section ArrayLaws.
Context {R : Type} (le : R → R → bool).

Lemma insert_by_perm (p : nat * R) (l : list (nat * R)) :
  Np.insert_by le p l ≡ₚ p :: l.
Proof.
  induction l as [|q l IH]; simpl; [done|].
  destruct (le q.2 p.2); [|done].
  rewrite IH. apply Permutation_swap.
Qed.

Lemma sort_pairs_perm (l : list (nat * R)) : Np.sort_pairs le l ≡ₚ l.
Proof.
  unfold Np.sort_pairs.
  enough (∀ acc, foldl (λ acc p, Np.insert_by le p acc) acc l ≡ₚ acc ++ l)
    as H by apply (H []).
  induction l as [|p l IH]; intros acc; simpl.
  - by rewrite app_nil_r.
  - rewrite IH, insert_by_perm. simpl. apply Permutation_middle.
Qed.

Lemma enumerate_fst (v : list R) : (Np.enumerate v).*1 = seq 0 (length v).
Proof. unfold Np.enumerate. apply fst_zip. by rewrite length_seq. Qed.

Lemma enumerate_elem (v : list R) (i : nat) (x : R) :
  (i, x) ∈ Np.enumerate v → v !! i = Some x.
Proof.
  unfold Np.enumerate. intros [k Hk]%list_elem_of_lookup.
  apply lookup_zip_with_Some in Hk as (i' & x' & [= -> ->] & Hi & Hx).
  apply lookup_seq in Hi as [-> _]. done.
Qed.

(** [np.argsort] returns a permutation of the positions. *)
Lemma argsort_perm (v : list R) : Np.argsort le v ≡ₚ seq 0 (length v).
Proof.
  unfold Np.argsort. rewrite sort_pairs_perm. by rewrite enumerate_fst.
Qed.

Lemma argsort_length (v : list R) : length (Np.argsort le v) = length v.
Proof. by rewrite argsort_perm, length_seq. Qed.

Lemma sort_length (v : list R) : length (Np.sort le v) = length v.
Proof.
  unfold Np.sort. rewrite length_fmap, <- (length_fmap fst).
  apply argsort_length.
Qed.

(** [np.sort(v)[a] = v[np.argsort(v)[a]]]. *)
Lemma sort_argsort_lookup (v : list R) (a i : nat) :
  Np.argsort le v !! a = Some i → Np.sort le v !! a = v !! i.
Proof.
  unfold Np.argsort, Np.sort. rewrite !list_lookup_fmap.
  destruct (Np.sort_pairs le (Np.enumerate v) !! a) as [[j x]|] eqn:Ha;
    simpl; [|done].
  intros [= ->]. symmetry. apply enumerate_elem.
  rewrite <- (sort_pairs_perm (Np.enumerate v)).
  by eapply list_elem_of_lookup_2.
Qed.
End ArrayLaws.

Section ScatterLaws.
Context {A : Type}.
Implicit Types (idx : list nat) (vals base l : list A).

Lemma scatter_cons idx vals base (i : nat) (v : A) :
  Np.scatter (i :: idx) (v :: vals) base = Np.scatter idx vals (<[i := v]> base).
Proof. done. Qed.

Lemma scatter_length idx vals base :
  length (Np.scatter idx vals base) = length base.
Proof.
  revert vals base. induction idx as [|i idx IH]; intros [|v vals] base; try done.
  rewrite scatter_cons, IH. apply length_insert.
Qed.

Lemma scatter_lookup_notin idx vals base (i : nat) :
  i ∉ idx → Np.scatter idx vals base !! i = base !! i.
Proof.
  revert vals base. induction idx as [|j idx IH]; intros [|v vals] base Hi; try done.
  apply not_elem_of_cons in Hi as [Hne Hi].
  rewrite scatter_cons, IH by done.
  by apply list_lookup_insert_ne.
Qed.

(** With distinct indices, position [idx[a]] ends up holding [vals[a]]. *)
Lemma scatter_lookup idx vals base (a i : nat) (v : A) :
  NoDup idx → idx !! a = Some i → vals !! a = Some v → i < length base →
  Np.scatter idx vals base !! i = Some v.
Proof.
  revert vals base a.
  induction idx as [|j idx IH]; intros [|w vals] base a Hnd Hi Hv Hlt; try done.
  apply NoDup_cons in Hnd as [Hj Hnd]. rewrite scatter_cons.
  destruct a as [|a]; simpl in *.
  - injection Hi as ->. injection Hv as ->.
    rewrite scatter_lookup_notin by done.
    by apply list_lookup_insert_eq.
  - eapply IH; eauto. by rewrite length_insert.
Qed.

(** Scattering through a permutation of the positions the values that these
    positions hold in [l] rebuilds [l]. *)
Lemma scatter_perm idx vals base l :
  idx ≡ₚ seq 0 (length l) → length base = length l →
  length vals = length idx →
  (∀ a i, idx !! a = Some i → vals !! a = l !! i) →
  Np.scatter idx vals base = l.
Proof.
  intros Hp Hb Hv Hval. apply list_eq. intros i.
  destruct (decide (i < length l)) as [Hi|Hi].
  - assert (i ∈ idx) as [a Ha]%list_elem_of_lookup.
    { rewrite Hp. apply elem_of_seq. lia. }
    destruct (lookup_lt_is_Some_2 l i Hi) as [x Hx].
    rewrite Hx. eapply scatter_lookup; eauto.
    + rewrite Hp. apply NoDup_seq.
    + rewrite (Hval a i Ha). done.
    + lia.
  - rewrite (lookup_ge_None_2 l) by lia.
    apply lookup_ge_None_2. rewrite scatter_length. lia.
Qed.
End ScatterLaws.

Section GridLaws.
Context {R A : Type} (le : R → R → bool).

(** Values computed from the sorted copy and scattered by [argsort] come
    back in the order of the array itself. *)
Lemma scatter_argsort (f : R → A) (v : list R) (base : list A) :
  length base = length v →
  Np.scatter (Np.argsort le v) (f <$> Np.sort le v) base = f <$> v.
Proof.
  intros Hb. apply scatter_perm.
  - rewrite length_fmap. apply argsort_perm.
  - by rewrite length_fmap.
  - by rewrite length_fmap, sort_length, argsort_length.
  - intros a i Ha. rewrite !list_lookup_fmap.
    by rewrite (sort_argsort_lookup le v a i Ha).
Qed.

Lemma omap_column (g : R → R → A) (xs ys : list R) (j : nat) (y : R) :
  ys !! j = Some y →
  omap (λ row : list A, row !! j) ((λ x, g x <$> ys) <$> xs)
  = (λ x, g x y) <$> xs.
Proof.
  intros Hy. induction xs as [|x xs IH]; csimpl; [done|].
  rewrite list_lookup_fmap, Hy. csimpl. by rewrite IH.
Qed.

(** The transpose of a surface evaluated on a grid. *)
Lemma transpose_grid (g : R → R → A) (xs ys : list R) :
  Np.transpose (length ys) ((λ x, g x <$> ys) <$> xs)
  = (λ y, (λ x, g x y) <$> xs) <$> ys.
Proof.
  unfold Np.transpose. apply list_eq. intros j.
  rewrite !list_lookup_fmap.
  destruct (ys !! j) as [y|] eqn:Hy; simpl.
  - rewrite lookup_seq_lt by (by eapply lookup_lt_Some). simpl.
    by erewrite omap_column.
  - rewrite lookup_seq_ge; [done|]. by apply lookup_ge_None.
Qed.
End GridLaws.

Section EvalLaws.
Context {R : Type} {F : Float64 R} {K : Fitpack R}.

Lemma zip_with_replicate_fmap {A B C : Type} (h : A → B → C) (b : A)
    (f : R → B) (v : list R) :
  zip_with h (replicate (length v) b) (f <$> v) = (λ x, h b (f x)) <$> v.
Proof. induction v as [|x v IH]; csimpl; [done|]. by rewrite IH. Qed.

Lemma no_descent_cons (a : R) (l : list R) :
  no_descent (a :: l)
  = match l with [] => true | b :: _ => negb (ltb b a) end && no_descent l.
Proof. by destruct l. Qed.

(** Inserting a pair where [insert_by] puts it keeps the values sorted. *)
Lemma insert_by_no_descent (p : nat * R) (l : list (nat * R)) :
  no_descent l.*2 = true → no_descent (Np.insert_by leb p l).*2 = true.
Proof.
  induction l as [|q l IH]; [done|].
  cbn [Np.insert_by]. destruct (leb q.2 p.2) eqn:Hle.
  - rewrite !fmap_cons, !no_descent_cons.
    intros [Hhd Hl]%andb_true_iff. rewrite (IH Hl), andb_true_r.
    destruct l as [|q' l]; cbn [Np.insert_by fmap list_fmap].
    + by rewrite (le_not_gt _ _ Hle).
    + destruct (leb q'.2 p.2); cbn [fmap list_fmap]; [done|].
      by rewrite (le_not_gt _ _ Hle).
  - intros Hl. rewrite !fmap_cons, no_descent_cons, <- fmap_cons, Hl.
    rewrite andb_true_r. cbn [fmap list_fmap].
    destruct (ltb q.2 p.2) eqn:Hlt; [|done].
    apply lt_le in Hlt. congruence.
Qed.

(** [np.sort] sorts: in the copy it returns no entry is below the entry
    before it. *)
Lemma sort_no_descent (v : list R) : no_descent (Np.sort leb v) = true.
Proof.
  unfold Np.sort, Np.sort_pairs.
  enough (∀ l acc, no_descent acc.*2 = true →
            no_descent (foldl (λ acc p, Np.insert_by leb p acc) acc l).*2 = true)
    as H by (by apply H).
  induction l as [|p l IH]; intros acc Hacc; [done|].
  apply IH. by apply insert_by_no_descent.
Qed.

(** The conversion to the logarithm of the energy in GeV keeps an array
    sorted. *)
Lemma log10_e3_no_descent (v : list R) :
  no_descent v = true →
  no_descent (log10 <$> ((λ e, mul e e3) <$> v)) = true.
Proof.
  induction v as [|a v IH]; [done|].
  rewrite no_descent_cons. intros [Hhd Hv]%andb_true_iff.
  rewrite !fmap_cons, no_descent_cons, (IH Hv), andb_true_r.
  destruct v as [|b v]; [done|]. cbn [fmap list_fmap].
  apply negb_true_iff in Hhd. by rewrite (log10_e3_monotone _ _ Hhd).
Qed.

(** The surface call of [opt_depth] is accepted: its two arrays are
    sorted. *)
Lemma RBSpline_call_sorted (s : Spline) (zv Ev : list R) :
  RBSpline_call s (log10 <$> ((λ e, mul e e3) <$> Np.sort leb Ev))
    (Np.sort leb zv)
  = Ok ((λ xi, bispev s xi <$> Np.sort leb zv)
          <$> (log10 <$> ((λ e, mul e e3) <$> Np.sort leb Ev))).
Proof.
  unfold RBSpline_call.
  by rewrite log10_e3_no_descent, sort_no_descent by apply sort_no_descent.
Qed.

(** What the sorting, the surface call on the sorted arrays and the two
    scattering assignments of [opt_depth] leave in [result]: the surface
    values in the order of the arrays as they were given. *)
Lemma result_matrix (s : Spline) (zv Ev : list R) :
  Np.scatter_cols (Np.argsort leb Ev)
    (Np.scatter (Np.argsort leb zv)
       (Np.transpose (length zv)
          ((λ xi, bispev s xi <$> Np.sort leb zv)
             <$> (log10 <$> ((λ e, mul e e3) <$> Np.sort leb Ev))))
       (Np.zeros zero (length zv) (length Ev)))
    (Np.zeros zero (length zv) (length Ev))
  = tau_matrix s zv Ev.
Proof.
  pose proof (transpose_grid (bispev s)
    (log10 <$> ((λ e, mul e e3) <$> Np.sort leb Ev)) (Np.sort leb zv)) as Ht.
  rewrite sort_length in Ht. rewrite Ht. clear Ht.
  rewrite scatter_argsort by apply length_replicate.
  unfold Np.scatter_cols, Np.zeros, tau_matrix.
  rewrite zip_with_replicate_fmap.
  apply list_fmap_ext. intros _ zi _.
  rewrite <- !list_fmap_compose.
  rewrite scatter_argsort by apply length_replicate.
  done.
Qed.
End EvalLaws.

(** * Running the methods *)

Section Runs.
Context {R : Type} {F : Float64 R} {K : Fitpack R}.
Implicit Types (w : world) (l self : loc) (o : OptDepth).

Lemma bind_ok {A B : Type} (m : M A) (f : A → M B) w (a : A) w' :
  m w = (Ok a, w') → bind m f w = f a w'.
Proof. unfold bind. by intros ->. Qed.

Lemma bind_raise {A B : Type} (m : M A) (f : A → M B) w (e : exn) w' :
  m w = (Raise e, w') → bind m f w = (Raise e, w').
Proof. unfold bind. by intros ->. Qed.

Lemma load_ok w l (c : cell) : heap w !! l = Some c → load l w = (Ok c, w).
Proof. unfold load. by intros ->. Qed.

Lemma load1_ok w l (v : list R) :
  heap w !! l = Some (Arr (A1 v)) → load1 l w = (Ok v, w).
Proof. intros H. unfold load1. by rewrite (bind_ok _ _ _ _ _ (load_ok _ _ _ H)). Qed.

Lemma load2_ok w l (m : list (list R)) :
  heap w !! l = Some (Arr (A2 m)) → load2 l w = (Ok m, w).
Proof. intros H. unfold load2. by rewrite (bind_ok _ _ _ _ _ (load_ok _ _ _ H)). Qed.

Lemma loadObj_ok w l o :
  heap w !! l = Some (Obj o) → loadObj l w = (Ok o, w).
Proof. intros H. unfold loadObj. by rewrite (bind_ok _ _ _ _ _ (load_ok _ _ _ H)). Qed.

Lemma arg_value_app (h ext : list cell) (a : pyarg R) (v : list R) :
  arg_value h a = Some v → arg_value (h ++ ext) a = Some v.
Proof.
  destruct a as [x|l|l]; simpl; [done| |];
    destruct (h !! l) as [c|] eqn:Hl; try done;
    by rewrite (lookup_app_l_Some _ _ _ _ Hl).
Qed.

(** Normalising an argument allocates at most one cell and yields a
    reference to the array the argument stands for. *)
Lemma normalise_run w (a : pyarg R) (v : list R) :
  arg_value (heap w) a = Some v →
  ∃ l ext,
    normalise a w = (Ok l, mkWorld (heap w ++ ext) (warnings w)) ∧
    (heap w ++ ext) !! l = Some (Arr (A1 v)).
Proof.
  destruct a as [x|l|l]; simpl.
  - intros [= <-]. exists (length (heap w)), [Arr (A1 [x])].
    split; [done|]. by apply list_lookup_middle.
  - destruct (heap w !! l) as [[[?|u|?]|?]|] eqn:Hl; try done.
    intros [= <-]. exists (length (heap w)), [Arr (A1 u)]. split.
    + by rewrite (bind_ok _ _ _ _ _ (load1_ok _ _ _ Hl)).
    + by apply list_lookup_middle.
  - destruct (heap w !! l) as [[[?|u|?]|?]|] eqn:Hl; try done.
    intros [= <-]. exists l, []. rewrite app_nil_r. split; [|done].
    by destruct w.
Qed.
Lemma heap2_lookup0 (h : list cell) (a b : cell) :
  (h ++ [a; b]) !! length h = Some a.
Proof. by apply list_lookup_middle. Qed.

Lemma heap2_lookup1 (h : list cell) (a b : cell) :
  (h ++ [a; b]) !! (length h + 1) = Some b.
Proof. rewrite lookup_app_r by lia. by replace (length h + 1 - length h) with 1 by lia. Qed.

Lemma heap2_insert0 (h : list cell) (a b c : cell) :
  <[length h := c]> (h ++ [a; b]) = h ++ [c; b].
Proof. rewrite insert_app_r_alt by lia. by rewrite Nat.sub_diag. Qed.

Lemma heap2_insert1 (h : list cell) (a b c : cell) :
  <[length h + 1 := c]> (h ++ [a; b]) = h ++ [a; c].
Proof.
  rewrite insert_app_r_alt by lia.
  by replace (length h + 1 - length h) with 1 by lia.
Qed.

(** [opt_depth] on two arrays of the store. *)
Lemma opt_depth_arrays w self o (lz lE : loc) (zv Ev : list R) (z0 : R)
    (grid : list R) :
  heap w !! self = Some (Obj o) →
  heap w !! _z o = Some (Arr (A1 (z0 :: grid))) →
  heap w !! lz = Some (Arr (A1 zv)) →
  heap w !! lE = Some (Arr (A1 Ev)) →
  ∃ ext,
    opt_depth self (NpArray lz) (NpArray lE) w
    = (Ok (Np.squeeze (length zv) (length Ev) (tau_matrix (tauSpline o) zv Ev)),
       mkWorld (heap w ++ ext) (warnings w ++ range_warning z0 zv)).
Proof.
  intros Hself Hgrid Hz HE. unfold opt_depth, normalise.
  unfold bind at 1. unfold ret at 1. unfold bind at 1. unfold ret at 1.
  rewrite (bind_ok _ _ _ _ _ (loadObj_ok _ _ _ Hself)).
  rewrite (bind_ok _ _ _ _ _ (load1_ok _ _ _ Hz)).
  rewrite (bind_ok _ _ _ _ _ (load1_ok _ _ _ Hgrid)).
  unfold first. unfold bind at 1. unfold ret at 1.
  assert ((if existsb (λ x : R, ltb x z0) zv then warn RuntimeWarning else ret ()) w
          = (Ok (), mkWorld (heap w) (warnings w ++ range_warning z0 zv))) as Hw.
  { unfold range_warning. destruct (existsb _ zv); [done|].
    unfold ret. rewrite app_nil_r. by destruct w. }
  rewrite (bind_ok _ _ _ _ _ Hw). clear Hw.
  rewrite (bind_ok _ _ _ _ _ (load1_ok (mkWorld (heap w) _) _ _ HE)).
  set (Z := Arr (A2 (Np.zeros zero (length zv) (length Ev)))).
  unfold bind at 1. unfold alloc at 1. cbn [heap warnings].
  unfold bind at 1. unfold alloc at 1. cbn [heap warnings].
  set (h := heap w). set (ws := warnings w ++ range_warning z0 zv).
  rewrite <- app_assoc, length_app. cbn [app length].
  rewrite RBSpline_call_sorted. unfold bind at 1. unfold lift at 1.
  rewrite (bind_ok _ _ _ _ _ (load2_ok (mkWorld _ ws) _ _ (heap2_lookup1 h Z Z))).
  unfold bind at 1. unfold store at 1. cbn [heap warnings].
  rewrite heap2_insert1.
  rewrite (bind_ok _ _ _ _ _ (load2_ok (mkWorld _ ws) _ _ (heap2_lookup1 h _ _))).
  subst Z.
  rewrite (bind_ok _ _ _ _ _ (load2_ok (mkWorld _ ws) _ _ (heap2_lookup0 h _ _))).
  unfold bind at 1. unfold store at 1. cbn [heap warnings].
  rewrite heap2_insert0.
  rewrite (bind_ok _ _ _ _ _ (load2_ok (mkWorld _ ws) _ _ (heap2_lookup0 h _ _))).
  unfold ret. rewrite result_matrix. eauto.
Qed.

(** [opt_depth] on any two arguments that stand for 1-D arrays, for an
    instance whose redshift grid is not empty: it returns, and what it
    returns is the squeezed matrix of the surface values. *)
Lemma opt_depth_run w self o (z E : pyarg R) (zv Ev : list R) (z0 : R)
    (grid : list R) :
  heap w !! self = Some (Obj o) →
  heap w !! _z o = Some (Arr (A1 (z0 :: grid))) →
  arg_value (heap w) z = Some zv →
  arg_value (heap w) E = Some Ev →
  ∃ ext,
    opt_depth self z E w
    = (Ok (Np.squeeze (length zv) (length Ev) (tau_matrix (tauSpline o) zv Ev)),
       mkWorld (heap w ++ ext) (warnings w ++ range_warning z0 zv)).
Proof.
  intros Hself Hgrid Hz HE.
  destruct (normalise_run w E Ev HE) as (lE & e1 & HnE & HlE).
  destruct (normalise_run (mkWorld (heap w ++ e1) (warnings w)) z zv)
    as (lz & e2 & Hnz & Hlz); [by apply arg_value_app|].
  cbn [heap warnings] in Hnz, Hlz.
  destruct (opt_depth_arrays (mkWorld ((heap w ++ e1) ++ e2) (warnings w))
              self o lz lE zv Ev z0 grid) as [ex Hrun]; cbn [heap].
  - by do 2 apply lookup_app_l_Some.
  - by do 2 apply lookup_app_l_Some.
  - done.
  - by apply lookup_app_l_Some.
  - exists (e1 ++ e2 ++ ex). rewrite !app_assoc.
    cbn [heap warnings] in Hrun. rewrite <- Hrun.
    unfold opt_depth.
    rewrite (bind_ok _ _ _ _ _ HnE), (bind_ok _ _ _ _ _ Hnz). done.
Qed.
End Runs.

(** * Permuted requests *)

Section Permutations.
Context {A B : Type}.
Implicit Types (p : list nat) (v : list A).

Lemma index_cons v p (i : nat) (x : A) :
  v !! i = Some x → Np.index v (i :: p) = x :: Np.index v p.
Proof. unfold Np.index. csimpl. by intros ->. Qed.

Lemma index_lookup v p (a i : nat) :
  Forall (λ j, j < length v) p → p !! a = Some i →
  Np.index v p !! a = v !! i.
Proof.
  intros Hp. revert a. induction Hp as [|j p Hj Hp IH]; intros a Ha; [done|].
  destruct (lookup_lt_is_Some_2 v j Hj) as [x Hx].
  rewrite (index_cons v p j x Hx).
  destruct a as [|a]; simpl in *; [|by apply IH].
  by injection Ha as <-.
Qed.

Lemma index_length v p :
  Forall (λ j, j < length v) p → length (Np.index v p) = length p.
Proof.
  induction 1 as [|j p Hj Hp IH]; [done|].
  destruct (lookup_lt_is_Some_2 v j Hj) as [x Hx].
  rewrite (index_cons v p j x Hx). simpl. by rewrite IH.
Qed.

Lemma perm_seq_bound p (n : nat) :
  p ≡ₚ seq 0 n → Forall (λ j, j < n) p.
Proof.
  intros Hp. apply Forall_forall. intros j Hj.
  rewrite Hp in Hj. apply elem_of_seq in Hj. lia.
Qed.

(** Un-permuting what was computed entry by entry from [v[p]] gives what is
    computed from [v]. *)
Lemma unpermute_index (f : A → B) v p :
  p ≡ₚ seq 0 (length v) →
  Np.unpermute p (f <$> Np.index v p) = f <$> v.
Proof.
  intros Hp. pose proof (perm_seq_bound p _ Hp) as Hb.
  assert (length p = length v) as Hlen by (by rewrite Hp, length_seq).
  unfold Np.unpermute. apply scatter_perm.
  - by rewrite length_fmap.
  - by rewrite !length_fmap, index_length, Hlen.
  - by rewrite length_fmap, index_length.
  - intros a i Ha. rewrite !list_lookup_fmap.
    by rewrite (index_lookup v p a i Hb Ha).
Qed.
End Permutations.

Section Shapes.
Context {R : Type} {F : Float64 R} {K : Fitpack R}.

Lemma tau_matrix_rows (s : Spline) (zv Ev : list R) :
  length (tau_matrix s zv Ev) = length zv.
Proof. unfold tau_matrix. by rewrite length_fmap. Qed.

Lemma tau_matrix_cols (s : Spline) (zv Ev : list R) :
  Forall (λ row, length row = length Ev) (tau_matrix s zv Ev).
Proof.
  unfold tau_matrix. apply Forall_fmap, Forall_forall. intros zi _. simpl.
  by rewrite length_fmap.
Qed.

Lemma column_singletons (m : list (list R)) :
  Forall (λ row, length row = 1) m →
  (λ x, [x]) <$> omap (λ row : list R, row !! 0) m = m.
Proof.
  induction 1 as [|row m Hrow Hm IH]; [done|].
  destruct row as [|x [|y row]]; try done. csimpl. by rewrite IH.
Qed.

(** Reshaping the squeezed matrix to its rows and columns restores it. *)
Lemma reshape_squeeze (r c : nat) (m : list (list R)) :
  length m = r → Forall (λ row, length row = c) m →
  Np.reshape r (Np.squeeze r c m) = m.
Proof.
  intros Hr Hc. unfold Np.squeeze.
  destruct r as [|[|r]], c as [|[|c]]; simpl; try done.
  - by destruct m.
  - by destruct m as [|row [|]].
  - destruct m as [|[|x [|]] [|]]; try done.
    all: by apply Forall_cons in Hc as [? _].
  - by destruct m as [|row [|]].
  - by apply column_singletons.
Qed.

(** The squeezed array has one axis for each of the two lengths that is
    not one. *)
Lemma ndim_squeeze (r c : nat) (m : list (list R)) :
  length m = r → Forall (λ row, length row = c) m →
  Np.ndim (Np.squeeze r c m)
  = (if r =? 1 then 0 else 1) + (if c =? 1 then 0 else 1).
Proof.
  intros Hr Hc. unfold Np.squeeze.
  destruct r as [|[|r]], c as [|[|c]]; simpl; try done.
  - by destruct m as [|row [|]].
  - destruct m as [|[|x [|]] [|]]; try done.
    all: by apply Forall_cons in Hc as [? _].
  - by destruct m as [|row [|]].
Qed.
End Shapes.

(** * The forward evaluator *)

Section Forward.
Context {R : Type} {F : Float64 R} {K : Fitpack R}.
Implicit Types (w : world) (o : OptDepth).

(** Scattering the sorted copy through [np.argsort] undoes the sort. *)
Lemma unpermute_argsort (v : list R) :
  Np.unpermute (Np.argsort leb v) (Np.sort leb v) = v.
Proof.
  unfold Np.unpermute.
  rewrite <- (list_fmap_id (Np.sort leb v)) at 1.
  rewrite (scatter_argsort leb id v) by apply sort_length.
  apply list_fmap_id.
Qed.

(** C3. For 1-D arrays [zv] and [Ev] and permutations [pz] and [pE] of their
    positions, [opt_depth] on the permuted arrays [zv[pz]] and [Ev[pE]],
    reshaped to Nz x NE and un-permuted along both axes, is [opt_depth] on
    [zv] and [Ev]; the latter is the matrix of the surface values in the
    order in which the caller gave the arrays.  Both calls return: the
    surface, which refuses an axis that is not sorted, is called on the
    sorted copies of the arrays, in which no entry is below the entry before
    it, and scattering through [np.argsort] is the inverse of the sort. *)
Theorem opt_depth_permutation_invariant w (self : loc) o (z0 : R)
    (grid zv Ev : list R) (lz lE lz' lE' : loc) (pz pE : list nat) :
  heap w !! self = Some (Obj o) →
  heap w !! _z o = Some (Arr (A1 (z0 :: grid))) →
  heap w !! lz = Some (Arr (A1 zv)) →
  heap w !! lE = Some (Arr (A1 Ev)) →
  pz ≡ₚ seq 0 (length zv) →
  pE ≡ₚ seq 0 (length Ev) →
  heap w !! lz' = Some (Arr (A1 (Np.index zv pz))) →
  heap w !! lE' = Some (Arr (A1 (Np.index Ev pE))) →
  ∃ r r',
    (opt_depth self (NpArray lz) (NpArray lE) w).1 = Ok r ∧
    (opt_depth self (NpArray lz') (NpArray lE') w).1 = Ok r' ∧
    r = Np.squeeze (length zv) (length Ev) (tau_matrix (tauSpline o) zv Ev) ∧
    Np.unpermute2 pz pE (Np.reshape (length zv) r') = Np.reshape (length zv) r ∧
    no_descent (Np.sort leb zv) = true ∧
    no_descent (log10 <$> ((λ e, mul e e3) <$> Np.sort leb Ev)) = true ∧
    Np.unpermute (Np.argsort leb zv) (Np.sort leb zv) = zv ∧
    Np.unpermute (Np.argsort leb Ev) (Np.sort leb Ev) = Ev.
Proof.
  intros Hself Hgrid Hz HE Hpz HpE Hz' HE'.
  destruct (opt_depth_arrays w self o lz lE zv Ev z0 grid) as [e Hrun]; try done.
  destruct (opt_depth_arrays w self o lz' lE' _ _ z0 grid Hself Hgrid Hz' HE')
    as [e' Hrun'].
  pose proof (perm_seq_bound pz _ Hpz) as Hbz.
  pose proof (perm_seq_bound pE _ HpE) as HbE.
  assert (length (Np.index zv pz) = length zv) as Hlz.
  { rewrite index_length by done. by rewrite Hpz, length_seq. }
  assert (length (Np.index Ev pE) = length Ev) as HlE.
  { rewrite index_length by done. by rewrite HpE, length_seq. }
  eexists _, _. rewrite Hrun, Hrun'. simpl.
  split; [done|]. split; [done|]. split; [done|].
  split; [|by rewrite log10_e3_no_descent, sort_no_descent,
                      !unpermute_argsort by apply sort_no_descent].
  rewrite <- Hlz at 1.
  rewrite !reshape_squeeze
    by first [apply tau_matrix_rows | apply tau_matrix_cols].
  unfold Np.unpermute2, tau_matrix. rewrite <- list_fmap_compose.
  rewrite (list_fmap_ext _ (λ zi, tau_at (tauSpline o) zi <$> Ev) (Np.index zv pz)).
  - by apply unpermute_index.
  - intros _ zi _. simpl. by apply unpermute_index.
Qed.
End Forward.

Lemma opt_depth_permutation_invariant_witness :
  ∃ r r',
    (opt_depth Sym.self (NpArray 3) (NpArray 4) Sym.model).1 = Ok r ∧
    (opt_depth Sym.self (NpArray 5) (NpArray 6) Sym.model).1 = Ok r' ∧
    r = Np.squeeze 3 2
          (tau_matrix (K := Sym.fitpack) Sym.fitted Sym.req_z Sym.req_E) ∧
    Np.unpermute2 [2; 0; 1] [1; 0] (Np.reshape 3 r') = Np.reshape 3 r ∧
    no_descent (Np.sort leb Sym.req_z) = true ∧
    no_descent (log10 <$> ((λ e, mul e e3) <$> Np.sort leb Sym.req_E)) = true ∧
    Np.unpermute (Np.argsort leb Sym.req_z) (Np.sort leb Sym.req_z) = Sym.req_z ∧
    Np.unpermute (Np.argsort leb Sym.req_E) (Np.sort leb Sym.req_E) = Sym.req_E.
Proof.
  eapply (opt_depth_permutation_invariant Sym.model Sym.self Sym.instance
           _ _ Sym.req_z Sym.req_E 3 4 5 6 [2; 0; 1] [1; 0]);
    try reflexivity.
  - apply (Permutation_cons_append [0; 1] 2).
  - apply perm_swap.
Defined.

(** The surface refuses the arrays of this request as the caller gave them:
    neither is sorted. *)
Example surface_refuses_unsorted :
  RBSpline_call Sym.fitted (log10 <$> ((λ e, mul e e3) <$> Sym.req_E)) Sym.req_z
  = Raise ValueError ∧
  RBSpline_call Sym.fitted
    (log10 <$> ((λ e, mul e e3) <$> Np.sort leb Sym.req_E)) Sym.req_z
  = Raise ValueError ∧
  RBSpline_call Sym.fitted
    (log10 <$> ((λ e, mul e e3) <$> Sym.req_E)) (Np.sort leb Sym.req_z)
  = Raise ValueError.
Proof. repeat split. Qed.

(** * The range warning *)

Section RangeWarning.
Context {R : Type} {F : Float64 R} {K : Fitpack R}.
Implicit Types (w : world) (o : OptDepth).




End RangeWarning.




(** * Squeezing *)

Section Squeezing.
Context {R : Type} {F : Float64 R} {K : Fitpack R}.
Implicit Types (w : world) (o : OptDepth).

(** What [np.squeeze] makes of the result: an axis of the Nz x NE matrix is
    gone exactly when the normalised input on that axis has length one,
    always for a scalar, and also for a list or an array of one element;
    arrays of another length keep their axis.  Squeezing changes the shape
    only: reshaped to Nz x NE, the result is the matrix of the surface
    values. *)
Lemma opt_depth_squeeze w (self : loc) o (z E : pyarg R)
    (zv Ev : list R) (z0 : R) (grid : list R) :
  heap w !! self = Some (Obj o) →
  heap w !! _z o = Some (Arr (A1 (z0 :: grid))) →
  arg_value (heap w) z = Some zv →
  arg_value (heap w) E = Some Ev →
  ∃ r,
    (opt_depth self z E w).1 = Ok r ∧
    Np.ndim r = (if length zv =? 1 then 0 else 1)
                + (if length Ev =? 1 then 0 else 1) ∧
    Np.reshape (length zv) r = tau_matrix (tauSpline o) zv Ev.
Proof.
  intros Hself Hgrid Hz HE.
  destruct (opt_depth_run w self o z E zv Ev z0 grid) as [ext Hrun]; try done.
  eexists. rewrite Hrun. split; [done|]. split.
  - apply ndim_squeeze; [apply tau_matrix_rows|apply tau_matrix_cols].
  - apply reshape_squeeze; [apply tau_matrix_rows|apply tau_matrix_cols].
Qed.
End Squeezing.

Example opt_depth_squeeze_scalars :
  ∃ r,
    (opt_depth Sym.self (PyScalar (Sym.Lit (1 # 2))) (PyScalar (Sym.Lit 1))
       Sym.model).1 = Ok r ∧
    Np.ndim r = 0 ∧
    Np.reshape 1 r
    = tau_matrix (K := Sym.fitpack) Sym.fitted [Sym.Lit (1 # 2)] [Sym.Lit 1].
Proof.
  eapply (opt_depth_squeeze Sym.model Sym.self Sym.instance
            (PyScalar (Sym.Lit (1 # 2))) (PyScalar (Sym.Lit 1))
            [Sym.Lit (1 # 2)] [Sym.Lit 1]);
    reflexivity.
Defined.

(** C6. The docstring promises an (N x M) array of which only the axes of
    scalar arguments are squeezed.  Here [z] is an array of one element and
    [E] an array of two: the result is not the 1 x 2 array but a 1-D array
    of two entries; [np.squeeze] has removed the axis of the array [z]
    too. *)
Theorem opt_depth_squeezes_unit_array :
  (opt_depth Sym.self (NpArray 8) (NpArray 4) Sym.model).1
  = Ok (A1 (tau_at (K := Sym.fitpack) Sym.fitted (Sym.Lit (1 # 2)) <$> Sym.req_E)).
Proof. reflexivity. Qed.

(** * The surface builder *)

Section Builder.
Context {R : Type} {F : Float64 R} {K : Fitpack R}.
Implicit Types (w : world) (o : OptDepth) (self l : loc).

(** scipy refuses a tau grid that does not have the shape of the two axes. *)
Lemma RBSpline_shape (x y : list R) (t : list (list R)) (kx ky : nat) :
  ¬ has_shape t (length x) (length y) → RBSpline x y t kx ky = Raise ValueError.
Proof.
  intros Hshape. unfold RBSpline.
  destruct (length x =? length t) eqn:Hx; simpl; [|done].
  destruct (forallb _ t) eqn:Hy; simpl; [|done].
  destruct Hshape. split.
  - symmetry. by apply Nat.eqb_eq.
  - apply Forall_forall. intros row Hrow. apply Nat.eqb_eq.
    rewrite forallb_forall in Hy. apply Hy. by rewrite <- list_elem_of_In.
Qed.

Lemma RBSpline_raises (x y : list R) (t : list (list R)) (kx ky : nat) (e : exn) :
  RBSpline x y t kx ky = Raise e → e = ValueError.
Proof. unfold RBSpline. repeat case_match; congruence. Qed.

(** A cell that holds an array is not the cell of the instance. *)
Lemma lookup_other_cell (h : list cell) self l (c : cell) o (a : ndarray R) :
  h !! self = Some (Obj o) → h !! l = Some (Arr a) →
  <[self := c]> h !! l = Some (Arr a).
Proof.
  intros Hs Hl. rewrite list_lookup_insert_ne; [done|]. intros ->. congruence.
Qed.

(** The two ways [rebuild] ends: it stores the new surface, or it raises and
    leaves the store as it was. *)
Lemma rebuild_cases w self o (kx ky : nat) :
  heap w !! self = Some (Obj o) →
  (∃ x y t s,
     heap w !! _logEGeV o = Some (Arr (A1 x)) ∧
     heap w !! _z o = Some (Arr (A1 y)) ∧
     heap w !! _tau o = Some (Arr (A2 t)) ∧
     RBSpline x y t kx ky = Ok s ∧
     rebuild self kx ky w
     = (Ok (), mkWorld (<[self := Obj (mkOptDepth (_z o) (_logEGeV o) (_tau o) s)]>
                          (heap w)) (warnings w)))
  ∨ (∃ e, rebuild self kx ky w = (Raise e, w)).
Proof.
  intros Hself. unfold rebuild.
  rewrite (bind_ok _ _ _ _ _ (loadObj_ok _ _ _ Hself)).
  unfold load1, load2, load, bind, raise, ret, lift, store.
  destruct (heap w !! _logEGeV o) as [[[?|x|?]|?]|]; eauto.
  destruct (heap w !! _z o) as [[[?|y|?]|?]|]; eauto.
  destruct (heap w !! _tau o) as [[[?|?|t]|?]|]; eauto.
  destruct (RBSpline x y t kx ky) as [s|e] eqn:Hs; eauto.
  left. by exists x, y, t, s.
Qed.

Lemma rebuild_raise w self o (x y : list R) (t : list (list R))
    (kx ky : nat) (e : exn) :
  heap w !! self = Some (Obj o) →
  heap w !! _logEGeV o = Some (Arr (A1 x)) →
  heap w !! _z o = Some (Arr (A1 y)) →
  heap w !! _tau o = Some (Arr (A2 t)) →
  RBSpline x y t kx ky = Raise e →
  rebuild self kx ky w = (Raise e, w).
Proof.
  intros Hself Hx Hy Ht Hs. unfold rebuild.
  rewrite (bind_ok _ _ _ _ _ (loadObj_ok _ _ _ Hself)).
  rewrite (bind_ok _ _ _ _ _ (load1_ok _ _ _ Hx)).
  rewrite (bind_ok _ _ _ _ _ (load1_ok _ _ _ Hy)).
  rewrite (bind_ok _ _ _ _ _ (load2_ok _ _ _ Ht)).
  unfold bind, lift. by rewrite Hs.
Qed.

(** When [rebuild] returns, the surface of the instance is the one of its
    three grids, and the three references are those it had. *)
Lemma rebuild_consistent w self o w' :
  heap w !! self = Some (Obj o) →
  rebuild self 2 2 w = (Ok (), w') →
  consistent w' self ∧
  ∃ s, heap w' !! self = Some (Obj (mkOptDepth (_z o) (_logEGeV o) (_tau o) s)).
Proof.
  intros Hself Hrun.
  destruct (rebuild_cases w self o 2 2 Hself)
    as [(x & y & t & s & Hx & Hy & Ht & Hs & Hok)|[e He]]; [|congruence].
  rewrite Hok in Hrun. injection Hrun as <-.
  assert (self < length (heap w)) as Hlt by (by eapply lookup_lt_Some).
  split; [|exists s; by apply list_lookup_insert_eq].
  exists (mkOptDepth (_z o) (_logEGeV o) (_tau o) s), x, y, t. simpl.
  split; [by apply list_lookup_insert_eq|].
  repeat split; try done; by eapply lookup_other_cell.
Qed.

(** A setter that gets as far as its assignment has found the instance. *)
Lemma loadObj_inv w self o w' :
  loadObj self w = (Ok o, w') → heap w !! self = Some (Obj o) ∧ w' = w.
Proof.
  unfold loadObj, load, bind, raise, ret.
  destruct (heap w !! self) as [[?|o']|]; try done. by intros [= -> ->].
Qed.

Lemma bind_inv_ok {A B : Type} (m : M A) (f : A → M B) w (b : B) w' :
  bind m f w = (Ok b, w') → ∃ a w1, m w = (Ok a, w1) ∧ f a w1 = (Ok b, w').
Proof.
  unfold bind. destruct (m w) as [[a|e] w1]; [|done]. intros H. by exists a, w1.
Qed.

Lemma set_z_consistent w self (z : loc) w' :
  set_z self z w = (Ok (), w') →
  consistent w' self ∧ get_z self w' = (Ok z, w').
Proof.
  unfold set_z.
  intros (o & w1 & [Hself ->]%loadObj_inv & Hrest)%bind_inv_ok.
  assert (self < length (heap w)) as Hlt by (by eapply lookup_lt_Some).
  unfold bind at 1, store at 1 in Hrest.
  eapply rebuild_consistent in Hrest as [Hc [s Hs]];
    [|by apply list_lookup_insert_eq].
  split; [done|]. unfold get_z.
  by rewrite (bind_ok _ _ _ _ _ (loadObj_ok _ _ _ Hs)).
Qed.

Lemma set_tau_consistent w self (tau : loc) w' :
  set_tau self tau w = (Ok (), w') →
  consistent w' self ∧ get_tau self w' = (Ok tau, w').
Proof.
  unfold set_tau.
  intros (o & w1 & [Hself ->]%loadObj_inv & Hrest)%bind_inv_ok.
  assert (self < length (heap w)) as Hlt by (by eapply lookup_lt_Some).
  unfold bind at 1, store at 1 in Hrest.
  eapply rebuild_consistent in Hrest as [Hc [s Hs]];
    [|by apply list_lookup_insert_eq].
  split; [done|]. unfold get_tau.
  by rewrite (bind_ok _ _ _ _ _ (loadObj_ok _ _ _ Hs)).
Qed.

Lemma load1_inv w l (v : list R) w' :
  load1 l w = (Ok v, w') → heap w !! l = Some (Arr (A1 v)) ∧ w' = w.
Proof.
  unfold load1, load, bind, raise, ret.
  destruct (heap w !! l) as [[[?|u|?]|?]|]; try done. by intros [= -> ->].
Qed.

(** [set_logEGeV] up to its call of [rebuild]: the logarithms are in a new
    array and the instance refers to it. *)
Lemma set_logEGeV_run w self o (EGeV : loc) (Ev : list R) :
  heap w !! self = Some (Obj o) →
  heap w !! EGeV = Some (Arr (A1 Ev)) →
  let lE := length (heap w) in
  let o1 := mkOptDepth (_z o) lE (_tau o) (tauSpline o) in
  let w1 := mkWorld (<[self := Obj o1]> (heap w ++ [Arr (A1 (log10 <$> Ev))]))
              (warnings w) in
  set_logEGeV self EGeV w = rebuild self 2 2 w1 ∧
  heap w1 !! self = Some (Obj o1) ∧
  heap w1 !! lE = Some (Arr (A1 (log10 <$> Ev))).
Proof.
  intros Hself HE lE o1 w1.
  assert (self < length (heap w)) as Hlt by (by eapply lookup_lt_Some).
  split; [|split].
  - unfold set_logEGeV.
    rewrite (bind_ok _ _ _ _ _ (loadObj_ok _ _ _ Hself)).
    by rewrite (bind_ok _ _ _ _ _ (load1_ok _ _ _ HE)).
  - apply list_lookup_insert_eq. rewrite length_app. lia.
  - simpl. rewrite list_lookup_insert_ne by (unfold lE; lia).
    by apply list_lookup_middle.
Qed.

Lemma set_logEGeV_consistent w self (EGeV : loc) w' :
  set_logEGeV self EGeV w = (Ok (), w') → consistent w' self.
Proof.
  intros Hrun. pose proof Hrun as Hrun'. unfold set_logEGeV in Hrun'.
  apply bind_inv_ok in Hrun' as (o & w1 & [Hself ->]%loadObj_inv & Hrest).
  apply bind_inv_ok in Hrest as (Ev & w1 & [HE ->]%load1_inv & _).
  destruct (set_logEGeV_run w self o EGeV Ev Hself HE) as (Heq & Hs & _).
  rewrite Heq in Hrun.
  by eapply rebuild_consistent in Hrun as [Hc _].
Qed.

(** [set_logEGeV], when it returns: the instance refers to a new array that
    holds the logarithms of the energies given. *)
Lemma set_logEGeV_stored w self (EGeV : loc) w' :
  set_logEGeV self EGeV w = (Ok (), w') →
  ∃ (l : loc) (Ev : list R),
    heap w !! EGeV = Some (Arr (A1 Ev)) ∧
    get_logEGeV self w' = (Ok l, w') ∧
    heap w' !! l = Some (Arr (A1 (log10 <$> Ev))).
Proof.
  intros Hrun. pose proof Hrun as Hrun'. unfold set_logEGeV in Hrun'.
  apply bind_inv_ok in Hrun' as (o & w1 & [Hself ->]%loadObj_inv & Hrest).
  apply bind_inv_ok in Hrest as (Ev & w1 & [HE ->]%load1_inv & _).
  destruct (set_logEGeV_run w self o EGeV Ev Hself HE) as (Heq & Hs & Hl).
  rewrite Heq in Hrun.
  destruct (rebuild_cases _ self _ 2 2 Hs)
    as [(x & y & t & s & _ & _ & _ & _ & Hok)|[e He]]; [|congruence].
  rewrite Hok in Hrun. injection Hrun as <-.
  exists (length (heap w)), Ev. split; [done|]. split.
  - unfold get_logEGeV. erewrite bind_ok.
    2:{ apply loadObj_ok. apply list_lookup_insert_eq. by eapply lookup_lt_Some. }
    done.
  - by eapply lookup_other_cell.
Qed.

(** C8, amended. When a setter of one of the three grids returns, the
    instance refers to the grid it was given (for the energies: to a new
    array of their base-10 logarithms), and its surface is the one that
    [RectBivariateSpline] gives, with degrees 2 and 2, for the three grids
    the instance now refers to. *)
Theorem setter_rebuilds_surface w (self v : loc) w' :
  (set_z self v w = (Ok (), w') →
   consistent w' self ∧ get_z self w' = (Ok v, w')) ∧
  (set_tau self v w = (Ok (), w') →
   consistent w' self ∧ get_tau self w' = (Ok v, w')) ∧
  (set_logEGeV self v w = (Ok (), w') →
   consistent w' self ∧
   ∃ (l : loc) (Ev : list R),
     heap w !! v = Some (Arr (A1 Ev)) ∧
     get_logEGeV self w' = (Ok l, w') ∧
     heap w' !! l = Some (Arr (A1 (log10 <$> Ev)))).
Proof.
  split; [apply set_z_consistent|]. split; [apply set_tau_consistent|].
  intros H. split; [by eapply set_logEGeV_consistent|].
  by apply set_logEGeV_stored.
Qed.

(** C10. Assigning an energy array through the setter of [logEGeV] stores
    the base-10 logarithms of its entries: read back at once, the property
    is the array of the logarithms, whether or not the rebuild of the
    surface that follows the assignment succeeds. *)
Theorem logEGeV_set_then_get w self o (EGeV : loc) (Ev : list R) :
  heap w !! self = Some (Obj o) →
  heap w !! EGeV = Some (Arr (A1 Ev)) →
  ∃ l,
    get_logEGeV self (set_logEGeV self EGeV w).2
    = (Ok l, (set_logEGeV self EGeV w).2) ∧
    heap (set_logEGeV self EGeV w).2 !! l = Some (Arr (A1 (log10 <$> Ev))).
Proof.
  intros Hself HE.
  destruct (set_logEGeV_run w self o EGeV Ev Hself HE) as (-> & Hs & Hl).
  exists (length (heap w)).
  destruct (rebuild_cases _ self _ 2 2 Hs)
    as [(x & y & t & s & _ & _ & _ & _ & ->)|[e ->]]; cbn [snd].
  - unfold get_logEGeV. erewrite bind_ok.
    2:{ apply loadObj_ok. apply list_lookup_insert_eq. by eapply lookup_lt_Some. }
    split; [done|]. by eapply lookup_other_cell.
  - unfold get_logEGeV.
    by rewrite (bind_ok _ _ _ _ _ (loadObj_ok _ _ _ Hs)).
Qed.
End Builder.

Lemma setter_rebuilds_surface_witness :
  consistent (set_z Sym.self 9 Sym.model).2 Sym.self ∧
  get_z Sym.self (set_z Sym.self 9 Sym.model).2
  = (Ok 9, (set_z Sym.self 9 Sym.model).2).
Proof.
  apply (proj1 (setter_rebuilds_surface Sym.model Sym.self 9
                  (set_z Sym.self 9 Sym.model).2)).
  reflexivity.
Defined.

(** C8 as stated fails: the setter of [tau] is given a 2 x 3 grid and raises
    when it rebuilds; the instance then refers to the 2 x 3 grid and still
    has the surface of the 3 x 3 grid, which is not the surface of its three
    grids (they have none). *)
Lemma failed_setter_is_stale :
  (set_tau Sym.self 7 Sym.model).1 = Raise ValueError ∧
  ¬ consistent (set_tau Sym.self 7 Sym.model).2 Sym.self.
Proof.
  split; [reflexivity|].
  intros (o & x & y & t & Hself & Hx & Hy & Ht & Hfit).
  injection Hself as <-. injection Hx as <-. injection Hy as <-.
  injection Ht as <-. discriminate Hfit.
Qed.

Lemma logEGeV_set_then_get_witness :
  ∃ l,
    get_logEGeV Sym.self (set_logEGeV Sym.self 1 Sym.model).2
    = (Ok l, (set_logEGeV Sym.self 1 Sym.model).2) ∧
    heap (set_logEGeV Sym.self 1 Sym.model).2 !! l
    = Some (Arr (A1 (Sym.Log10 <$> Sym.grid_E))).
Proof.
  exact (logEGeV_set_then_get Sym.model Sym.self Sym.instance 1 Sym.grid_E
           eq_refl eq_refl).
Defined.

(** * Grids of the wrong shape *)

Section ShapeErrors.
Context {R : Type} {F : Float64 R} {K : Fitpack R}.
Implicit Types (w : world) (o : OptDepth) (self l : loc).

Lemma lookup_app_plus (h ext : list cell) (i : nat) :
  (h ++ ext) !! (length h + i) = ext !! i.
Proof.
  rewrite lookup_app_r by lia. f_equal. lia.
Qed.

(** The constructor copies its three arguments and raises when the surface
    is built: no instance is added to the store. *)
Lemma init_shape w (z EGeV tau : loc) (zv Ev : list R) (tv : list (list R))
    (kx ky : nat) :
  heap w !! z = Some (Arr (A1 zv)) →
  heap w !! EGeV = Some (Arr (A1 Ev)) →
  heap w !! tau = Some (Arr (A2 tv)) →
  ¬ has_shape tv (length Ev) (length zv) →
  init z EGeV tau kx ky w
  = (Raise ValueError,
     mkWorld (heap w ++ [Arr (A1 zv); Arr (A1 (log10 <$> Ev)); Arr (A2 tv)])
       (warnings w)).
Proof.
  intros Hz HE Ht Hshape. unfold init.
  rewrite (bind_ok _ _ _ _ _ (load1_ok _ _ _ Hz)).
  unfold bind at 1, alloc at 1.
  erewrite bind_ok by (apply load1_ok; cbn [heap]; by apply lookup_app_l_Some).
  unfold bind at 1, alloc at 1. cbn [heap warnings].
  erewrite bind_ok
    by (apply load2_ok; cbn [heap]; by do 2 apply lookup_app_l_Some).
  unfold bind at 1, alloc at 1. cbn [heap warnings].
  set (a := Arr (A1 zv)). set (b := Arr (A1 (log10 <$> Ev))). set (c := Arr (A2 tv)).
  assert ((((heap w ++ [a]) ++ [b]) ++ [c]) = heap w ++ [a; b; c]) as ->
    by (by rewrite <- !app_assoc).
  rewrite !length_app. cbn [length].
  assert (∀ i x, [a; b; c] !! i = Some x →
                 (heap w ++ [a; b; c]) !! (length (heap w) + i) = Some x) as Hl.
  { intros i x <-. apply lookup_app_plus. }
  rewrite (bind_ok _ _ _ _ _ (load1_ok (mkWorld _ _) _ _ (Hl 1 b eq_refl))).
  rewrite <- (Nat.add_0_r (length (heap w))) at 1.
  rewrite (bind_ok _ _ _ _ _ (load1_ok (mkWorld _ _) _ _ (Hl 0 a eq_refl))).
  rewrite <- (Nat.add_assoc _ 1 1).
  rewrite (bind_ok _ _ _ _ _ (load2_ok (mkWorld _ _) _ _ (Hl 2 c eq_refl))).
  unfold bind, lift. rewrite RBSpline_shape; [done|].
  by rewrite length_fmap.
Qed.

(** A setter assigns its field and then rebuilds: when the rebuild raises,
    the assignment has been made and the surface is the one from before. *)
Lemma set_tau_shape w self o (tau : loc) (x y : list R) (tv : list (list R)) :
  heap w !! self = Some (Obj o) →
  heap w !! _logEGeV o = Some (Arr (A1 x)) →
  heap w !! _z o = Some (Arr (A1 y)) →
  heap w !! tau = Some (Arr (A2 tv)) →
  ¬ has_shape tv (length x) (length y) →
  set_tau self tau w
  = (Raise ValueError,
     mkWorld (<[self := Obj (mkOptDepth (_z o) (_logEGeV o) tau (tauSpline o))]>
                (heap w)) (warnings w)).
Proof.
  intros Hself Hx Hy Ht Hshape. unfold set_tau.
  assert (self < length (heap w)) as Hlt by (by eapply lookup_lt_Some).
  rewrite (bind_ok _ _ _ _ _ (loadObj_ok _ _ _ Hself)).
  unfold bind at 1, store at 1.
  eapply rebuild_raise; cbn [heap _z _logEGeV _tau].
  - by apply list_lookup_insert_eq.
  - by eapply lookup_other_cell.
  - by eapply lookup_other_cell.
  - by eapply lookup_other_cell.
  - by apply RBSpline_shape.
Qed.

Lemma set_z_shape w self o (z : loc) (x yv : list R) (t : list (list R)) :
  heap w !! self = Some (Obj o) →
  heap w !! _logEGeV o = Some (Arr (A1 x)) →
  heap w !! z = Some (Arr (A1 yv)) →
  heap w !! _tau o = Some (Arr (A2 t)) →
  ¬ has_shape t (length x) (length yv) →
  set_z self z w
  = (Raise ValueError,
     mkWorld (<[self := Obj (mkOptDepth z (_logEGeV o) (_tau o) (tauSpline o))]>
                (heap w)) (warnings w)).
Proof.
  intros Hself Hx Hy Ht Hshape. unfold set_z.
  assert (self < length (heap w)) as Hlt by (by eapply lookup_lt_Some).
  rewrite (bind_ok _ _ _ _ _ (loadObj_ok _ _ _ Hself)).
  unfold bind at 1, store at 1.
  eapply rebuild_raise; cbn [heap _z _logEGeV _tau].
  - by apply list_lookup_insert_eq.
  - by eapply lookup_other_cell.
  - by eapply lookup_other_cell.
  - by eapply lookup_other_cell.
  - by apply RBSpline_shape.
Qed.

Lemma set_logEGeV_shape w self o (EGeV : loc) (Ev y : list R)
    (t : list (list R)) :
  heap w !! self = Some (Obj o) →
  heap w !! EGeV = Some (Arr (A1 Ev)) →
  heap w !! _z o = Some (Arr (A1 y)) →
  heap w !! _tau o = Some (Arr (A2 t)) →
  ¬ has_shape t (length Ev) (length y) →
  (set_logEGeV self EGeV w).1 = Raise ValueError.
Proof.
  intros Hself HE Hy Ht Hshape.
  destruct (set_logEGeV_run w self o EGeV Ev Hself HE) as (-> & Hs & Hl).
  erewrite rebuild_raise; [done|exact Hs|exact Hl| | |];
    cbn [heap _z _logEGeV _tau].
  - eapply lookup_other_cell; [by apply lookup_app_l_Some|].
    by apply lookup_app_l_Some.
  - eapply lookup_other_cell; [by apply lookup_app_l_Some|].
    by apply lookup_app_l_Some.
  - apply RBSpline_shape. by rewrite length_fmap.
Qed.

(** C4, amended. With a tau grid whose shape is not (length of the energy
    grid, length of the redshift grid), the constructor raises the
    [ValueError] of [RectBivariateSpline] and adds no instance to the store,
    only the copies of its three arguments; and each setter that replaces a
    grid of an instance so that the shapes no longer agree raises the same
    error. *)
Theorem shape_mismatch_raises w :
  (∀ (z EGeV tau : loc) zv Ev tv (kx ky : nat),
     heap w !! z = Some (Arr (A1 zv)) →
     heap w !! EGeV = Some (Arr (A1 Ev)) →
     heap w !! tau = Some (Arr (A2 tv)) →
     ¬ has_shape tv (length Ev) (length zv) →
     init z EGeV tau kx ky w
     = (Raise ValueError,
        mkWorld (heap w ++ [Arr (A1 zv); Arr (A1 (log10 <$> Ev)); Arr (A2 tv)])
          (warnings w))) ∧
  (∀ self o (v : loc) x y t,
     heap w !! self = Some (Obj o) →
     heap w !! _logEGeV o = Some (Arr (A1 x)) →
     heap w !! _z o = Some (Arr (A1 y)) →
     heap w !! _tau o = Some (Arr (A2 t)) →
     (∀ tv, heap w !! v = Some (Arr (A2 tv)) →
            ¬ has_shape tv (length x) (length y) →
            (set_tau self v w).1 = Raise ValueError) ∧
     (∀ yv, heap w !! v = Some (Arr (A1 yv)) →
            ¬ has_shape t (length x) (length yv) →
            (set_z self v w).1 = Raise ValueError) ∧
     (∀ Ev, heap w !! v = Some (Arr (A1 Ev)) →
            ¬ has_shape t (length Ev) (length y) →
            (set_logEGeV self v w).1 = Raise ValueError)).
Proof.
  split.
  - intros. by apply init_shape.
  - intros self o v x y t Hself Hx Hy Ht. repeat split.
    + intros tv Hv Hshape. by erewrite set_tau_shape.
    + intros yv Hv Hshape. by erewrite set_z_shape.
    + intros Ev Hv Hshape. by eapply set_logEGeV_shape.
Qed.
End ShapeErrors.

Lemma short_tau_shape :
  ¬ has_shape Sym.short_tau (length Sym.grid_E) (length Sym.grid_z).
Proof. by intros [[=] _]. Qed.

Lemma shape_mismatch_raises_witness :
  init 0 1 7 2 2 Sym.caller
  = (Raise ValueError,
     mkWorld (heap Sym.caller
              ++ [Arr (A1 Sym.grid_z); Arr (A1 (log10 <$> Sym.grid_E));
                  Arr (A2 Sym.short_tau)]) []) ∧
  (set_tau Sym.self 7 Sym.model).1 = Raise ValueError.
Proof.
  split.
  - apply (proj1 (shape_mismatch_raises Sym.caller) 0 1 7); try reflexivity.
    exact short_tau_shape.
  - eapply (proj2 (shape_mismatch_raises Sym.model) Sym.self Sym.instance 7);
      try reflexivity.
    exact short_tau_shape.
Defined.

(** C4 as stated fails for the setters: replacing the tau grid of the
    instance by a 2 x 3 grid raises, yet the instance is still in the store,
    it now refers to the 2 x 3 grid together with the surface of the 3 x 3
    grid, and it still evaluates. *)
Lemma failed_setter_leaves_instance :
  (set_tau Sym.self 7 Sym.model).1 = Raise ValueError ∧
  heap (set_tau Sym.self 7 Sym.model).2 !! Sym.self
  = Some (Obj (mkOptDepth 11 12 7 Sym.fitted)) ∧
  (opt_depth Sym.self (PyScalar (Sym.Lit (1 # 2))) (PyScalar (Sym.Lit 1))
     (set_tau Sym.self 7 Sym.model).2).1
  = Ok (A0 (tau_at (K := Sym.fitpack) Sym.fitted (Sym.Lit (1 # 2)) (Sym.Lit 1))).
Proof. repeat split. Qed.

(** * Evaluation reads and does not write *)

Section Frame.
Context {R : Type} {F : Float64 R} {K : Fitpack R}.
Implicit Types (w : world) (l self : loc) (n : nat).

Lemma preserves_ret {A : Type} n (a : A) : preserves n (ret a).
Proof. by intros w Hn. Qed.

Lemma preserves_raise {A : Type} n (e : exn) : preserves n (raise (A := A) e).
Proof. by intros w Hn. Qed.

Lemma preserves_lift {A : Type} n (r : outcome A) : preserves n (lift r).
Proof. by intros w Hn. Qed.

Lemma preserves_warn n (x : warning) : preserves n (warn x).
Proof. by intros w Hn. Qed.

Lemma preserves_load n l : preserves n (load l).
Proof. intros w Hn. unfold load. by destruct (heap w !! l). Qed.

Lemma preserves_store n l (c : cell) : n ≤ l → preserves n (store l c).
Proof.
  intros Hl w Hn. unfold store. cbn [snd heap].
  rewrite take_insert_ge by done. split; [done|]. by rewrite length_insert.
Qed.

Lemma preserves_bind {A B : Type} n (m : M A) (f : A → M B) :
  preserves n m → (∀ a, preserves n (f a)) → preserves n (bind m f).
Proof.
  intros Hm Hf w Hn. unfold bind.
  destruct (Hm w Hn) as [Ht Hlen].
  destruct (m w) as [[a|e] w1]; cbn [snd] in *; [|done].
  destruct (Hf a w1 Hlen) as [Ht' Hlen']. split; [congruence|done].
Qed.

(** A newly allocated cell lies beyond the cells there were. *)
Lemma preserves_alloc_bind {B : Type} n (c : cell) (f : loc → M B) :
  (∀ l, n ≤ l → preserves n (f l)) → preserves n (bind (alloc c) f).
Proof.
  intros Hf w Hn. unfold bind, alloc.
  destruct (Hf (length (heap w)) Hn (mkWorld (heap w ++ [c]) (warnings w)))
    as [Ht Hlen]; cbn [heap]; [rewrite length_app; lia|].
  split; [|done]. rewrite Ht. cbn [heap]. by apply take_app_le.
Qed.

Lemma preserves_load1 n l : preserves n (load1 l).
Proof.
  apply preserves_bind; [apply preserves_load|].
  intros [[?|?|?]|?]; first [apply preserves_ret|apply preserves_raise].
Qed.

Lemma preserves_load2 n l : preserves n (load2 l).
Proof.
  apply preserves_bind; [apply preserves_load|].
  intros [[?|?|?]|?]; first [apply preserves_ret|apply preserves_raise].
Qed.

Lemma preserves_loadObj n l : preserves n (loadObj l).
Proof.
  apply preserves_bind; [apply preserves_load|].
  intros [[?|?|?]|?]; first [apply preserves_ret|apply preserves_raise].
Qed.

Lemma preserves_lookup {A : Type} (m : M A) w l (c : cell) :
  preserves (length (heap w)) m →
  heap w !! l = Some c → heap (m w).2 !! l = Some c.
Proof.
  intros Hm Hl. destruct (Hm w (le_n _)) as [Ht _].
  rewrite firstn_all in Ht.
  rewrite <- (take_drop (length (heap w)) (heap (m w).2)), Ht.
  by apply lookup_app_l_Some.
Qed.

Lemma preserves_normalise n (a : pyarg R) : preserves n (normalise a).
Proof.
  destruct a as [x|l|l]; simpl.
  - intros w Hn. unfold alloc. cbn [snd heap]. rewrite length_app.
    split; [by apply take_app_le|lia].
  - apply preserves_bind; [apply preserves_load1|]. intros v w Hn.
    unfold alloc. cbn [snd heap]. rewrite length_app.
    split; [by apply take_app_le|lia].
  - apply preserves_ret.
Qed.

Ltac frame :=
  repeat first
    [ apply preserves_ret | apply preserves_raise | apply preserves_lift
    | apply preserves_warn | apply preserves_load1 | apply preserves_load2
    | apply preserves_loadObj | apply preserves_normalise
    | apply preserves_store; assumption
    | apply preserves_alloc_bind; intros ? ?
    | apply preserves_bind; [|intros ?] ].

(** [opt_depth] writes to [result] and [tt] only, which it has allocated. *)
Lemma preserves_opt_depth n self (z E : pyarg R) :
  preserves n (opt_depth self z E).
Proof.
  unfold opt_depth, first. frame.
  all: match goal with
       | |- preserves _ (match ?g with _ => _ end) => destruct g; frame
       end.
Qed.

Lemma preserves_opt_depth_inverse n self (z tau : R) :
  preserves n (opt_depth_inverse self z tau).
Proof. unfold opt_depth_inverse. frame. Qed.

(** On a 2-D array too, [opt_depth] writes to [result] and [tt] only. *)
Lemma preserves_opt_depth_2d n self (z : R) (ETeV : list (list R)) :
  preserves n (opt_depth_2d self z ETeV).
Proof.
  unfold opt_depth_2d, first. frame.
  all: match goal with
       | |- preserves _ (match ?g with _ => _ end) => destruct g; frame
       end.
Qed.

Section Ebin.
Variable call : loc → R → list (list R) → M (ndarray R).
Hypothesis call_reads : ∀ n self z a, preserves n (call self z a).

Lemma preserves_Ebin_loop n self (z : R) (Ebin : list R) (Esteps : nat)
    (logE_array : list (list R)) (t_array : list (ndarray R)) :
  preserves n (Ebin_loop call self z Ebin Esteps logE_array t_array).
Proof.
  revert logE_array t_array.
  induction Ebin as [|E rest IH]; intros logE_array t_array; [apply preserves_ret|].
  destruct rest as [|E' rest]; [apply preserves_ret|].
  cbn [Ebin_loop]. apply preserves_bind; [apply call_reads|].
  intros t. apply IH.
Qed.

Lemma preserves_opt_depth_Ebin n self (z : R) (Ebin : list R)
    (func : list (list R) → list (list R)) (Esteps : nat) :
  preserves n (opt_depth_Ebin call self z Ebin func Esteps).
Proof.
  unfold opt_depth_Ebin. apply preserves_bind; [apply preserves_Ebin_loop|].
  intros r. frame.
Qed.
End Ebin.
End Frame.

Section PureReads.
Context {R : Type} {F : Float64 R} {K : Fitpack R}.

(** C9. The three evaluation methods leave every cell of the store as it
    was: the instance with its three references and its surface, the three
    grids, and the arrays of the caller, the arguments [z] and [ETeV] of
    [opt_depth] among them.  [opt_depth] writes only to the two matrices it
    allocates, and sorts copies; [opt_depth_inverse] writes nothing; and
    [opt_depth_Ebin] writes only through its calls of [opt_depth] on the
    2-D arrays it makes.  This holds whether the method returns or
    raises. *)
Theorem evaluation_reads_only (w : world) (self : loc) (z E : pyarg R)
    (zf tau : R) (Ebin : list R) (func : list (list R) → list (list R))
    (Esteps : nat) (l : loc) (c : cell) :
  heap w !! l = Some c →
  heap (opt_depth self z E w).2 !! l = Some c ∧
  heap (opt_depth_inverse self zf tau w).2 !! l = Some c ∧
  heap (opt_depth_Ebin opt_depth_2d self zf Ebin func Esteps w).2 !! l = Some c.
Proof.
  intros Hl. repeat split; apply preserves_lookup; try done.
  - apply preserves_opt_depth.
  - apply preserves_opt_depth_inverse.
  - apply preserves_opt_depth_Ebin. intros. apply preserves_opt_depth_2d.
Qed.

Lemma prefixes_cons {A : Type} (x : A) (l : list A) :
  prefixes (x :: l) = [x] :: ((x ::.) <$> prefixes l).
Proof.
  unfold prefixes. cbn [length seq fmap list_fmap take]. f_equal.
  by rewrite <- fmap_S_seq, <- !list_fmap_compose.
Qed.

Section Loop.
Variable call : loc → R → list (list R) → M (ndarray R).

Lemma Ebin_loop_cons (self : loc) (z E E' : R) (rest : list R) (Esteps : nat)
    (logE_array : list (list R)) (t_array : list (ndarray R)) :
  Ebin_loop call self z (E :: E' :: rest) Esteps logE_array t_array
  = bind (call self z (exp2 (logE_array ++ [linspace (ln E) (ln E') Esteps])))
      (λ t, Ebin_loop call self z (E' :: rest) Esteps
              (logE_array ++ [linspace (ln E) (ln E') Esteps])
              (t_array ++ [t])).
Proof. done. Qed.

Lemma bin_grids_cons (E E' : R) (rest : list R) (Esteps : nat) :
  bin_grids (E :: E' :: rest) Esteps
  = linspace (ln E) (ln E') Esteps :: bin_grids (E' :: rest) Esteps.
Proof. done. Qed.

(** The loop, started with the two lists as they are at some round. *)
Lemma Ebin_loop_from (self : loc) (z : R) (Ebin : list R) (Esteps : nat)
    (logE_array : list (list R)) (t_array : list (ndarray R)) (w : world) :
  Ebin_loop call self z Ebin Esteps logE_array t_array w
  = bind (calls call self z
            (exp2 <$> ((logE_array ++.) <$> prefixes (bin_grids Ebin Esteps))))
      (λ ts, ret (logE_array ++ bin_grids Ebin Esteps, t_array ++ ts)) w.
Proof.
  revert logE_array t_array w.
  induction Ebin as [|E rest IH]; intros acc ts w.
  { unfold bind, ret. simpl. by rewrite !app_nil_r. }
  destruct rest as [|E' rest].
  { unfold bind, ret. simpl. by rewrite !app_nil_r. }
  rewrite Ebin_loop_cons, bin_grids_cons, prefixes_cons.
  cbn [fmap list_fmap calls]. unfold bind at 1 2 3.
  destruct (call self z (exp2 (acc ++ [linspace (ln E) (ln E') Esteps])) w)
    as [[t|e] w1]; [|done].
  rewrite IH.
  assert (app acc <$> (cons (linspace (ln E) (ln E') Esteps) <$>
                       prefixes (bin_grids (E' :: rest) Esteps))
          = app (acc ++ [linspace (ln E) (ln E') Esteps]) <$>
            prefixes (bin_grids (E' :: rest) Esteps)) as ->.
  { rewrite <- list_fmap_compose. apply list_fmap_ext.
    intros _ p _. simpl. by rewrite <- app_assoc. }
  unfold bind.
  destruct (calls call self z _ w1) as [[ts'|e] w2]; [|done].
  unfold ret. by rewrite <- !app_assoc.
Qed.
End Loop.

(** C2, as the code has it. For bin [i] the loop of [opt_depth_Ebin] calls
    [opt_depth] with the 2-D array of the grids of the bins 0 to [i], since
    [np.exp] is applied to the whole list [logE_array]: the calls are made on
    the prefixes of the list of the grids, not on the grid of each bin. *)
Theorem Ebin_loop_passes_all_grids
    (call : loc → R → list (list R) → M (ndarray R)) (self : loc)
    (z : R) (Ebin : list R) (Esteps : nat) (w : world) :
  Ebin_loop call self z Ebin Esteps [] [] w
  = bind (calls call self z (exp2 <$> prefixes (bin_grids Ebin Esteps)))
      (λ ts, ret (bin_grids Ebin Esteps, ts)) w.
Proof.
  rewrite Ebin_loop_from. cbn [app].
  by rewrite (list_fmap_id (prefixes (bin_grids Ebin Esteps))).
Qed.

(** With three edges: the second call gets both grids. *)
Example Ebin_loop_two_bins
    (call : loc → R → list (list R) → M (ndarray R)) (self : loc)
    (z E0 E1 E2 : R) (Esteps : nat) :
  Ebin_loop call self z [E0; E1; E2] Esteps [] []
  = bind (call self z (exp2 [linspace (ln E0) (ln E1) Esteps]))
      (λ t0,
         bind (call self z (exp2 [linspace (ln E0) (ln E1) Esteps;
                                  linspace (ln E1) (ln E2) Esteps]))
           (λ t1,
              ret ([linspace (ln E0) (ln E1) Esteps;
                    linspace (ln E1) (ln E2) Esteps], [t0; t1]))).
Proof. reflexivity. Qed.
End PureReads.

Lemma evaluation_reads_only_witness :
  heap (opt_depth Sym.self (NpArray 3) (NpArray 4) Sym.model).2 !! 3
  = Some (Arr (A1 Sym.req_z)) ∧
  heap (opt_depth_inverse Sym.self (Sym.Lit (1 # 2)) (Sym.Lit 1) Sym.model).2 !! 3
  = Some (Arr (A1 Sym.req_z)) ∧
  heap (opt_depth_Ebin opt_depth_2d Sym.self (Sym.Lit (1 # 2))
          [Sym.Lit (1 # 10); Sym.Lit 1; Sym.Lit 10] (λ m, m) 3 Sym.model).2 !! 3
  = Some (Arr (A1 Sym.req_z)).
Proof.
  apply (evaluation_reads_only Sym.model Sym.self
           (NpArray 3) (NpArray 4) (Sym.Lit (1 # 2)) (Sym.Lit 1)
           [Sym.Lit (1 # 10); Sym.Lit 1; Sym.Lit 10] (λ m, m) 3 3).
  reflexivity.
Defined.

(** * Further properties of the class *)

Section Constructor.
Context {R : Type} {F : Float64 R} {K : Fitpack R}.
Implicit Types (w : world) (o : OptDepth) (self l : loc).

Lemma load2_inv w l (m : list (list R)) w' :
  load2 l w = (Ok m, w') → heap w !! l = Some (Arr (A2 m)) ∧ w' = w.
Proof.
  unfold load2, load, bind, raise, ret.
  destruct (heap w !! l) as [[[?|?|u]|?]|]; try done. by intros [= -> ->].
Qed.

Lemma RBSpline_ok (x y : list R) (t : list (list R)) (kx ky : nat) (s : Spline) :
  has_shape t (length x) (length y) →
  regrid x y t kx ky = Some s →
  RBSpline x y t kx ky = Ok s.
Proof.
  intros [Hx Hy] Hs. unfold RBSpline.
  rewrite <- Hx, Nat.eqb_refl. simpl.
  assert (forallb (λ row : list R, length row =? length y) t = true) as ->.
  { apply forallb_forall. intros row Hrow. apply Nat.eqb_eq.
    apply (proj1 (Forall_forall _ _) Hy). by rewrite list_elem_of_In. }
  simpl. by rewrite Hs.
Qed.

(** The constructor on three arrays of the store: it copies them, and then
    all depends on [RectBivariateSpline]. *)
Lemma init_run w (z EGeV tau : loc) (zv Ev : list R) (tv : list (list R))
    (kx ky : nat) :
  heap w !! z = Some (Arr (A1 zv)) →
  heap w !! EGeV = Some (Arr (A1 Ev)) →
  heap w !! tau = Some (Arr (A2 tv)) →
  init z EGeV tau kx ky w
  = match RBSpline (log10 <$> Ev) zv tv kx ky with
    | Ok s =>
        (Ok (length (heap w) + 3),
         mkWorld (heap w ++ [Arr (A1 zv); Arr (A1 (log10 <$> Ev)); Arr (A2 tv);
                             Obj (mkOptDepth (length (heap w))
                                    (length (heap w) + 1)
                                    (length (heap w) + (1 + 1)) s)])
           (warnings w))
    | Raise e =>
        (Raise e,
         mkWorld (heap w ++ [Arr (A1 zv); Arr (A1 (log10 <$> Ev)); Arr (A2 tv)])
           (warnings w))
    end.
Proof.
  intros Hz HE Ht. unfold init.
  rewrite (bind_ok _ _ _ _ _ (load1_ok _ _ _ Hz)).
  unfold bind at 1, alloc at 1.
  erewrite bind_ok by (apply load1_ok; cbn [heap]; by apply lookup_app_l_Some).
  unfold bind at 1, alloc at 1. cbn [heap warnings].
  erewrite bind_ok
    by (apply load2_ok; cbn [heap]; by do 2 apply lookup_app_l_Some).
  unfold bind at 1, alloc at 1. cbn [heap warnings].
  set (a := Arr (A1 zv)). set (b := Arr (A1 (log10 <$> Ev))). set (c := Arr (A2 tv)).
  assert ((((heap w ++ [a]) ++ [b]) ++ [c]) = heap w ++ [a; b; c]) as ->
    by (by rewrite <- !app_assoc).
  rewrite !length_app. cbn [length].
  assert (∀ i x, [a; b; c] !! i = Some x →
                 (heap w ++ [a; b; c]) !! (length (heap w) + i) = Some x) as Hl.
  { intros i x <-. apply lookup_app_plus. }
  rewrite (bind_ok _ _ _ _ _ (load1_ok (mkWorld _ _) _ _ (Hl 1 b eq_refl))).
  rewrite <- (Nat.add_0_r (length (heap w))) at 1.
  rewrite (bind_ok _ _ _ _ _ (load1_ok (mkWorld _ _) _ _ (Hl 0 a eq_refl))).
  rewrite <- (Nat.add_assoc _ 1 1).
  rewrite (bind_ok _ _ _ _ _ (load2_ok (mkWorld _ _) _ _ (Hl 2 c eq_refl))).
  unfold bind, lift. destruct (RBSpline _ zv tv kx ky) as [s|e]; [|done].
  unfold alloc. cbn [heap warnings]. rewrite length_app. cbn [length].
  by rewrite <- app_assoc.
Qed.

(** The constructor, read back. *)
Lemma init_read_back w (z EGeV tau : loc) (zv Ev : list R)
    (tv : list (list R)) (kx ky : nat) (s : Spline) :
  heap w !! z = Some (Arr (A1 zv)) →
  heap w !! EGeV = Some (Arr (A1 Ev)) →
  heap w !! tau = Some (Arr (A2 tv)) →
  has_shape tv (length Ev) (length zv) →
  regrid (log10 <$> Ev) zv tv kx ky = Some s →
  ∃ self w' lz lE lt,
    init z EGeV tau kx ky w = (Ok self, w') ∧
    get_z self w' = (Ok lz, w') ∧
    get_logEGeV self w' = (Ok lE, w') ∧
    get_tau self w' = (Ok lt, w') ∧
    heap w' !! lz = Some (Arr (A1 zv)) ∧
    heap w' !! lE = Some (Arr (A1 (log10 <$> Ev))) ∧
    heap w' !! lt = Some (Arr (A2 tv)) ∧
    length (heap w) ≤ lz ∧ length (heap w) ≤ lE ∧ length (heap w) ≤ lt ∧
    ∀ l c, heap w !! l = Some c → heap w' !! l = Some c.
Proof.
  intros Hz HE Ht Hshape Hs.
  rewrite (init_run w z EGeV tau zv Ev tv kx ky Hz HE Ht).
  rewrite (RBSpline_ok _ _ _ _ _ s); [|by rewrite length_fmap|done].
  set (h := heap w). eexists _, _, (length h), (length h + 1), (length h + (1 + 1)).
  split; [done|].
  assert (∀ i x, [Arr (A1 zv); Arr (A1 (log10 <$> Ev)); Arr (A2 tv);
                  Obj (mkOptDepth (length h) (length h + 1) (length h + (1 + 1)) s)]
                 !! i = Some x →
                 (h ++ [Arr (A1 zv); Arr (A1 (log10 <$> Ev)); Arr (A2 tv);
                        Obj (mkOptDepth (length h) (length h + 1)
                               (length h + (1 + 1)) s)])
                 !! (length h + i) = Some x) as Hl.
  { intros i x <-. apply lookup_app_plus. }
  pose proof (Hl 3 _ eq_refl) as Hobj.
  unfold get_z, get_logEGeV, get_tau.
  rewrite !(bind_ok _ _ _ _ _ (loadObj_ok (mkWorld _ _) _ _ Hobj)).
  repeat split; unfold ret; cbn [heap _z _logEGeV _tau]; try done; try lia.
  - by apply list_lookup_middle.
  - by apply Hl.
  - by apply (Hl 2).
  - intros l c Hlc. by apply lookup_app_l_Some.
Qed.

(** What the constructor establishes. *)
Lemma init_consistent w (z EGeV tau : loc) (self : loc) w' :
  init z EGeV tau 2 2 w = (Ok self, w') → consistent w' self.
Proof.
  unfold init. intros Hrun.
  apply bind_inv_ok in Hrun as (zv & w1 & _ & Hrun).
  apply bind_inv_ok in Hrun as (lz & w2 & _ & Hrun).
  apply bind_inv_ok in Hrun as (Ev & w3 & _ & Hrun).
  apply bind_inv_ok in Hrun as (lE & w4 & _ & Hrun).
  apply bind_inv_ok in Hrun as (tv & w5 & _ & Hrun).
  apply bind_inv_ok in Hrun as (lt & w6 & _ & Hrun).
  apply bind_inv_ok in Hrun as (x & w7 & [Hx ->]%load1_inv & Hrun).
  apply bind_inv_ok in Hrun as (y & w8 & [Hy ->]%load1_inv & Hrun).
  apply bind_inv_ok in Hrun as (t & w9 & [Ht ->]%load2_inv & Hrun).
  apply bind_inv_ok in Hrun as (s & w10 & Hs & Hrun).
  unfold lift in Hs. injection Hs as Hs <-.
  unfold alloc in Hrun. injection Hrun as <- <-.
  exists (mkOptDepth lz lE lt s), x, y, t. cbn [heap _z _logEGeV _tau tauSpline].
  split; [by apply list_lookup_middle|].
  repeat split; try done; by apply lookup_app_l_Some.
Qed.

(** X1. When the three grids have agreeing shapes and FITPACK accepts them,
    the constructor returns an instance whose three properties read back the
    redshifts, the base-10 logarithms of the energies and the optical
    depths; they are copies in new cells, and every cell the caller had is
    as it was. *)
Theorem constructor_read_back w (z EGeV tau : loc) (zv Ev : list R)
    (tv : list (list R)) (kx ky : nat) (s : Spline) :
  heap w !! z = Some (Arr (A1 zv)) →
  heap w !! EGeV = Some (Arr (A1 Ev)) →
  heap w !! tau = Some (Arr (A2 tv)) →
  has_shape tv (length Ev) (length zv) →
  regrid (log10 <$> Ev) zv tv kx ky = Some s →
  ∃ self w' lz lE lt,
    init z EGeV tau kx ky w = (Ok self, w') ∧
    get_z self w' = (Ok lz, w') ∧
    get_logEGeV self w' = (Ok lE, w') ∧
    get_tau self w' = (Ok lt, w') ∧
    heap w' !! lz = Some (Arr (A1 zv)) ∧
    heap w' !! lE = Some (Arr (A1 (log10 <$> Ev))) ∧
    heap w' !! lt = Some (Arr (A2 tv)) ∧
    length (heap w) ≤ lz ∧ length (heap w) ≤ lE ∧ length (heap w) ≤ lt ∧
    ∀ l c, heap w !! l = Some c → heap w' !! l = Some c.
Proof. apply init_read_back. Qed.

(** X2. Whenever the constructor, called with the default degrees, returns
    an instance, the surface of the instance is the one of its three
    grids. *)
Theorem constructor_consistent w (z EGeV tau : loc) (self : loc) w' :
  init z EGeV tau 2 2 w = (Ok self, w') → consistent w' self.
Proof. apply init_consistent. Qed.
End Constructor.

Lemma constructor_read_back_witness :
  ∃ self w' lz lE lt,
    init 0 1 2 2 2 Sym.caller = (Ok self, w') ∧
    get_z self w' = (Ok lz, w') ∧
    get_logEGeV self w' = (Ok lE, w') ∧
    get_tau self w' = (Ok lt, w') ∧
    heap w' !! lz = Some (Arr (A1 Sym.grid_z)) ∧
    heap w' !! lE = Some (Arr (A1 (log10 <$> Sym.grid_E))) ∧
    heap w' !! lt = Some (Arr (A2 Sym.grid_tau)) ∧
    length (heap Sym.caller) ≤ lz ∧ length (heap Sym.caller) ≤ lE ∧
    length (heap Sym.caller) ≤ lt ∧
    ∀ l c, heap Sym.caller !! l = Some c → heap w' !! l = Some c.
Proof.
  apply (constructor_read_back Sym.caller 0 1 2 Sym.grid_z Sym.grid_E
           Sym.grid_tau 2 2 Sym.fitted); try reflexivity.
  split; [reflexivity|]. by repeat constructor.
Defined.

Lemma constructor_consistent_witness : consistent Sym.model Sym.self.
Proof. apply (constructor_consistent Sym.caller 0 1 2). reflexivity. Defined.

Section SetterFrame.
Context {R : Type} {F : Float64 R} {K : Fitpack R}.
Implicit Types (w : world) (o : OptDepth) (self l : loc).

Lemma loadObj_cases w self :
  (∃ o, heap w !! self = Some (Obj o) ∧ loadObj self w = (Ok o, w)) ∨
  (∃ e, loadObj self w = (Raise e, w)).
Proof.
  unfold loadObj, load, bind, raise, ret.
  destruct (heap w !! self) as [[?|o]|]; eauto.
Qed.

Lemma load1_cases w l :
  (∃ v, heap w !! l = Some (Arr (A1 v)) ∧ load1 l w = (Ok v, w)) ∨
  (∃ e, load1 l w = (Raise e, w)).
Proof.
  unfold load1, load, bind, raise, ret.
  destruct (heap w !! l) as [[[?|v|?]|?]|]; eauto.
Qed.

(** [rebuild] changes at most the cell of the instance. *)
Lemma rebuild_frame w self o (kx ky : nat) l (c : cell) :
  heap w !! self = Some (Obj o) → l ≠ self →
  heap w !! l = Some c → heap (rebuild self kx ky w).2 !! l = Some c.
Proof.
  intros Hself Hne Hl.
  destruct (rebuild_cases w self o kx ky Hself)
    as [(x & y & t & s & _ & _ & _ & _ & ->)|[e ->]]; cbn [snd heap]; [|done].
  by rewrite list_lookup_insert_ne.
Qed.

(** X3. A setter writes to the cell of the instance only (the setter of
    [logEGeV] also allocates the array of the logarithms): whether it returns
    or raises, every other cell of the store, the grids and the arrays of the
    caller among them, is as it was. *)
Theorem setter_writes_instance_only w self (v l : loc) (c : cell) :
  l ≠ self →
  heap w !! l = Some c →
  heap (set_z self v w).2 !! l = Some c ∧
  heap (set_logEGeV self v w).2 !! l = Some c ∧
  heap (set_tau self v w).2 !! l = Some c.
Proof.
  intros Hne Hl.
  assert (l < length (heap w)) as Hlt by (by eapply lookup_lt_Some).
  repeat split.
  - unfold set_z.
    destruct (loadObj_cases w self) as [(o & Hself & Ho)|[e He]];
      [|by rewrite (bind_raise _ _ _ _ _ He)].
    rewrite (bind_ok _ _ _ _ _ Ho). unfold bind at 1, store at 1.
    eapply rebuild_frame; cbn [heap]; [|done|by rewrite list_lookup_insert_ne].
    apply list_lookup_insert_eq. by eapply lookup_lt_Some.
  - unfold set_logEGeV.
    destruct (loadObj_cases w self) as [(o & Hself & Ho)|[e He]];
      [|by rewrite (bind_raise _ _ _ _ _ He)].
    rewrite (bind_ok _ _ _ _ _ Ho).
    destruct (load1_cases w v) as [(Ev & HE & Hv)|[e He]];
      [|by rewrite (bind_raise _ _ _ _ _ He)].
    rewrite (bind_ok _ _ _ _ _ Hv).
    unfold bind at 1, alloc at 1. unfold bind at 1, store at 1. cbn [heap warnings].
    eapply rebuild_frame; cbn [heap]; [|done|].
    + apply list_lookup_insert_eq. rewrite length_app.
      apply lookup_lt_Some in Hself. lia.
    + rewrite list_lookup_insert_ne by done. by apply lookup_app_l_Some.
  - unfold set_tau.
    destruct (loadObj_cases w self) as [(o & Hself & Ho)|[e He]];
      [|by rewrite (bind_raise _ _ _ _ _ He)].
    rewrite (bind_ok _ _ _ _ _ Ho). unfold bind at 1, store at 1.
    eapply rebuild_frame; cbn [heap]; [|done|by rewrite list_lookup_insert_ne].
    apply list_lookup_insert_eq. by eapply lookup_lt_Some.
Qed.
End SetterFrame.

Lemma setter_writes_instance_only_witness :
  heap (set_z Sym.self 10 Sym.model).2 !! 11 = Some (Arr (A1 Sym.grid_z)) ∧
  heap (set_logEGeV Sym.self 10 Sym.model).2 !! 11 = Some (Arr (A1 Sym.grid_z)) ∧
  heap (set_tau Sym.self 10 Sym.model).2 !! 11 = Some (Arr (A1 Sym.grid_z)).
Proof.
  apply (setter_writes_instance_only Sym.model Sym.self 10 11); [|reflexivity].
  by intros [=].
Defined.

Section Stale.
Context {R : Type} {F : Float64 R} {K : Fitpack R}.
Implicit Types (w : world) (o : OptDepth) (self l : loc).

Lemma arg_value_insert (h : list cell) self o (c : cell) (a : pyarg R)
    (v : list R) :
  h !! self = Some (Obj o) →
  arg_value h a = Some v → arg_value (<[self := c]> h) a = Some v.
Proof.
  intros Hself. destruct a as [x|l|l]; simpl; [done| |];
    destruct (h !! l) as [[[?|u|?]|?]|] eqn:Hl; try done;
    by rewrite (lookup_other_cell h self l c o _ Hself Hl).
Qed.

(** X4. When the setter of [tau] raises, the property [tau] reads back the
    rejected grid, and yet [opt_depth] returns what it returned before the
    assignment: the instance goes on evaluating the surface of the previous
    grid. *)
Theorem failed_set_tau_keeps_surface w self o (v : loc) (e : exn) w'
    (z E : pyarg R) (zv Ev : list R) (z0 : R) (grid : list R) :
  heap w !! self = Some (Obj o) →
  heap w !! _z o = Some (Arr (A1 (z0 :: grid))) →
  arg_value (heap w) z = Some zv →
  arg_value (heap w) E = Some Ev →
  set_tau self v w = (Raise e, w') →
  get_tau self w' = (Ok v, w') ∧
  (opt_depth self z E w').1 = (opt_depth self z E w).1.
Proof.
  intros Hself Hgrid Hz HE Hrun.
  assert (self < length (heap w)) as Hlt by (by eapply lookup_lt_Some).
  unfold set_tau in Hrun.
  rewrite (bind_ok _ _ _ _ _ (loadObj_ok _ _ _ Hself)) in Hrun.
  unfold bind at 1, store at 1 in Hrun.
  set (o1 := mkOptDepth (_z o) (_logEGeV o) v (tauSpline o)) in Hrun.
  set (w1 := mkWorld (<[self := Obj o1]> (heap w)) (warnings w)) in Hrun.
  assert (heap w1 !! self = Some (Obj o1)) as Hs1
    by (by apply list_lookup_insert_eq).
  destruct (rebuild_cases w1 self o1 2 2 Hs1)
    as [(x & y & t & s & _ & _ & _ & _ & Hok)|[e' He']]; [congruence|].
  rewrite He' in Hrun. injection Hrun as _ <-.
  split.
  - unfold get_tau. by rewrite (bind_ok _ _ _ _ _ (loadObj_ok _ _ _ Hs1)).
  - destruct (opt_depth_run w self o z E zv Ev z0 grid) as [ext ->]; try done.
    destruct (opt_depth_run w1 self o1 z E zv Ev z0 grid) as [ext1 ->];
      try done; cbn [heap _z].
    + by eapply lookup_other_cell.
    + by eapply arg_value_insert.
    + by eapply arg_value_insert.
Qed.
End Stale.

Lemma failed_set_tau_keeps_surface_witness :
  get_tau Sym.self (set_tau Sym.self 7 Sym.model).2
  = (Ok 7, (set_tau Sym.self 7 Sym.model).2) ∧
  (opt_depth Sym.self (NpArray 3) (NpArray 4) (set_tau Sym.self 7 Sym.model).2).1
  = (opt_depth Sym.self (NpArray 3) (NpArray 4) Sym.model).1.
Proof.
  eapply (failed_set_tau_keeps_surface Sym.model Sym.self Sym.instance 7
            ValueError _ (NpArray 3) (NpArray 4)); reflexivity.
Defined.

Section Requests.
Context {R : Type} {F : Float64 R} {K : Fitpack R}.
Implicit Types (w : world) (o : OptDepth) (self l : loc).

(** X5. Evaluation on arrays is evaluation entry by entry: entry [(i, j)] of
    the result for the arrays [zv] and [Ev] is the 0-D result for the scalars
    [zv[i]] and [Ev[j]]. *)
Theorem opt_depth_entrywise w self o (z E : pyarg R) (zv Ev : list R)
    (z0 : R) (grid : list R) (i j : nat) (zi e : R) :
  heap w !! self = Some (Obj o) →
  heap w !! _z o = Some (Arr (A1 (z0 :: grid))) →
  arg_value (heap w) z = Some zv →
  arg_value (heap w) E = Some Ev →
  zv !! i = Some zi →
  Ev !! j = Some e →
  ∃ r x,
    (opt_depth self z E w).1 = Ok r ∧
    (opt_depth self (PyScalar zi) (PyScalar e) w).1 = Ok (A0 x) ∧
    Np.reshape (length zv) r !! i ≫= (.!! j) = Some x.
Proof.
  intros Hself Hgrid Hz HE Hi Hj.
  destruct (opt_depth_run w self o z E zv Ev z0 grid) as [ext ->]; try done.
  destruct (opt_depth_run w self o (PyScalar zi) (PyScalar e) [zi] [e] z0 grid)
    as [ext' ->]; try done.
  eexists _, _. split; [done|]. split; [done|]. cbn [fst].
  rewrite reshape_squeeze by first [apply tau_matrix_rows|apply tau_matrix_cols].
  unfold tau_matrix. rewrite list_lookup_fmap, Hi. simpl.
  by rewrite list_lookup_fmap, Hj.
Qed.

(** X6. What [opt_depth] returns and warns depends on the entries of its
    arguments only, not on their kind: a list and an array with the same
    entries, or a scalar and an array of that one entry, give the same. *)
Theorem opt_depth_argument_kinds w self o (z z' E E' : pyarg R)
    (zv Ev : list R) (z0 : R) (grid : list R) :
  heap w !! self = Some (Obj o) →
  heap w !! _z o = Some (Arr (A1 (z0 :: grid))) →
  arg_value (heap w) z = Some zv →
  arg_value (heap w) z' = Some zv →
  arg_value (heap w) E = Some Ev →
  arg_value (heap w) E' = Some Ev →
  (opt_depth self z E w).1 = (opt_depth self z' E' w).1 ∧
  warnings (opt_depth self z E w).2 = warnings (opt_depth self z' E' w).2.
Proof.
  intros Hself Hgrid Hz Hz' HE HE'.
  destruct (opt_depth_run w self o z E zv Ev z0 grid) as [ext ->]; try done.
  by destruct (opt_depth_run w self o z' E' zv Ev z0 grid) as [ext' ->].
Qed.

(** X7. On an instance whose redshift grid is empty, [opt_depth] raises
    [IndexError] (from [self._z[0]]) whatever is requested, and issues no
    warning. *)
Theorem opt_depth_empty_grid w self o (z E : pyarg R) (zv Ev : list R) :
  heap w !! self = Some (Obj o) →
  heap w !! _z o = Some (Arr (A1 [])) →
  arg_value (heap w) z = Some zv →
  arg_value (heap w) E = Some Ev →
  (opt_depth self z E w).1 = Raise IndexError ∧
  warnings (opt_depth self z E w).2 = warnings w.
Proof.
  intros Hself Hgrid Hz HE.
  destruct (normalise_run w E Ev HE) as (lE & e1 & HnE & HlE).
  destruct (normalise_run (mkWorld (heap w ++ e1) (warnings w)) z zv)
    as (lz & e2 & Hnz & Hlz); [by apply arg_value_app|].
  cbn [heap warnings] in Hnz, Hlz.
  unfold opt_depth.
  rewrite (bind_ok _ _ _ _ _ HnE), (bind_ok _ _ _ _ _ Hnz).
  erewrite bind_ok
    by (apply loadObj_ok; cbn [heap]; by do 2 apply lookup_app_l_Some).
  erewrite bind_ok by (by apply load1_ok).
  erewrite bind_ok
    by (apply load1_ok; cbn [heap]; by do 2 apply lookup_app_l_Some).
  done.
Qed.
End Requests.

Lemma opt_depth_entrywise_witness :
  ∃ r x,
    (opt_depth Sym.self (NpArray 3) (NpArray 4) Sym.model).1 = Ok r ∧
    (opt_depth Sym.self (PyScalar (Sym.Lit (1 # 20))) (PyScalar (Sym.Lit 1))
       Sym.model).1 = Ok (A0 x) ∧
    Np.reshape (length Sym.req_z) r !! 1 ≫= (.!! 0) = Some x.
Proof.
  eapply (opt_depth_entrywise Sym.model Sym.self Sym.instance (NpArray 3)
            (NpArray 4) Sym.req_z Sym.req_E _ _ 1 0); reflexivity.
Defined.

Lemma opt_depth_argument_kinds_witness :
  (opt_depth Sym.self (PyList 3) (PyScalar (Sym.Lit (1 # 2))) Sym.model).1
  = (opt_depth Sym.self (NpArray 3) (NpArray 8) Sym.model).1 ∧
  warnings (opt_depth Sym.self (PyList 3) (PyScalar (Sym.Lit (1 # 2))) Sym.model).2
  = warnings (opt_depth Sym.self (NpArray 3) (NpArray 8) Sym.model).2.
Proof.
  eapply (opt_depth_argument_kinds Sym.model Sym.self Sym.instance
            (PyList 3) (NpArray 3) (PyScalar (Sym.Lit (1 # 2))) (NpArray 8));
    reflexivity.
Defined.

Lemma opt_depth_empty_grid_witness :
  (opt_depth Sym.self (NpArray 3) (NpArray 4)
     (set_z Sym.self 15 (mkWorld (heap Sym.model ++ [Arr (A1 [])]) [])).2).1
  = Raise IndexError ∧
  warnings (opt_depth Sym.self (NpArray 3) (NpArray 4)
     (set_z Sym.self 15 (mkWorld (heap Sym.model ++ [Arr (A1 [])]) [])).2).2
  = [].
Proof.
  eapply (opt_depth_empty_grid
            (set_z Sym.self 15 (mkWorld (heap Sym.model ++ [Arr (A1 [])]) [])).2
            Sym.self (mkOptDepth (K := Sym.fitpack) 15 12 13 Sym.fitted)
            (NpArray 3) (NpArray 4));
    reflexivity.
Defined.

Section Inverse.
Context {R : Type} {F : Float64 R} {K : Fitpack R}.
Implicit Types (w : world) (o : OptDepth) (self l : loc).

(** The curve [self.__tauSpline(self._logEGeV, z)[:,0]]. *)
Lemma inverse_curve (s : Spline) (logE : list R) (z : R) :
  omap (λ row : list R, row !! 0) ((λ x, bispev s x <$> [z]) <$> logE)
  = (λ x, bispev s x z) <$> logE.
Proof. by apply omap_column. Qed.

(** [opt_depth_inverse] on an instance of the store: the surface call wants
    the stored log-energies sorted. *)
Lemma opt_depth_inverse_run w self o (logE : list R) (z tau : R) :
  heap w !! self = Some (Obj o) →
  heap w !! _logEGeV o = Some (Arr (A1 logE)) →
  opt_depth_inverse self z tau w
  = (if no_descent logE
     then match curfit ((λ x, bispev (tauSpline o) x z) <$> logE) logE with
          | Some f => Ok (power ten (f tau))
          | None => Raise ValueError
          end
     else Raise ValueError, w).
Proof.
  intros Hself HlogE. unfold opt_depth_inverse.
  rewrite (bind_ok _ _ _ _ _ (loadObj_ok _ _ _ Hself)).
  rewrite (bind_ok _ _ _ _ _ (load1_ok _ _ _ HlogE)).
  unfold RBSpline_call. cbn [no_descent]. rewrite andb_true_r.
  destruct (no_descent logE); [|done].
  unfold bind at 1, lift at 1.
  rewrite (bind_ok _ _ _ _ _ (load1_ok _ _ _ HlogE)).
  rewrite inverse_curve. unfold bind, lift, USpline, ret.
  by destruct (curfit _ logE).
Qed.

(** X8. Forward, then inverse, at a stored energy: when [e] is the energy in
    TeV whose value in GeV has the stored logarithm [le], and the 1-D spline
    of [opt_depth_inverse] passes through its data point at [le], then
    [opt_depth_inverse] applied to the optical depth that [opt_depth]
    returns for [e] gives [10 ** le], the energy again, in GeV, when the
    stored log-energies are sorted, and raises the [ValueError] of the
    surface call when they are not. *)
Theorem inverse_of_forward_at_grid w self o (z0 : R) (grid logE : list R)
    (z e le : R) (f : R → R) (i : nat) :
  heap w !! self = Some (Obj o) →
  heap w !! _z o = Some (Arr (A1 (z0 :: grid))) →
  heap w !! _logEGeV o = Some (Arr (A1 logE)) →
  logE !! i = Some le →
  log10 (mul e e3) = le →
  curfit ((λ x, bispev (tauSpline o) x z) <$> logE) logE = Some f →
  f (bispev (tauSpline o) le z) = le →
  ∃ t w1,
    opt_depth self (PyScalar z) (PyScalar e) w = (Ok (A0 t), w1) ∧
    (opt_depth_inverse self z t w1).1
    = if no_descent logE then Ok (power ten le) else Raise ValueError.
Proof.
  intros Hself Hgrid HlogE Hi He Hf Hnode.
  destruct (opt_depth_run w self o (PyScalar z) (PyScalar e) [z] [e] z0 grid)
    as [ext Hrun]; try done.
  eexists _, _. split; [exact Hrun|].
  erewrite opt_depth_inverse_run; cbn [heap];
    [|by apply lookup_app_l_Some|by apply lookup_app_l_Some].
  rewrite Hf. cbn [fst]. unfold tau_at. by rewrite He, Hnode.
Qed.
End Inverse.

Lemma inverse_of_forward_at_grid_witness :
  ∃ t w1,
    opt_depth (F := Calc.float64) 6 (PyScalar (Sym.Lit (1 # 2)))
      (PyScalar (Sym.Lit (1 # 10))) Calc.model = (Ok (A0 t), w1) ∧
    (opt_depth_inverse (F := Calc.float64) 6 (Sym.Lit (1 # 2)) t w1).1
    = Ok (Sym.Power (Sym.Lit 10) (Sym.Log10 (Sym.Lit 100))).
Proof.
  exact (inverse_of_forward_at_grid (F := Calc.float64) (K := Calc.fitpack)
           Calc.model 6 Calc.instance (Sym.Lit (1 # 10))
           [Sym.Lit (1 # 2); Sym.Lit 1] (Sym.Log10 <$> Sym.grid_E)
           (Sym.Lit (1 # 2)) (Sym.Lit (1 # 10)) (Sym.Log10 (Sym.Lit 100))
           (Calc.through
              ((λ x, bispev (Fitpack := Calc.fitpack) Sym.fitted x
                       (Sym.Lit (1 # 2))) <$> (Sym.Log10 <$> Sym.grid_E))
              (Sym.Log10 <$> Sym.grid_E)) 1
           eq_refl eq_refl eq_refl eq_refl eq_refl eq_refl eq_refl).
Defined.

(** After the setter of [logEGeV] has raised on energies that decrease, the
    instance refers to their logarithms, which decrease too: the surface
    call of [opt_depth_inverse] on them raises, while [opt_depth], which
    sorts what it passes to the surface, still returns. *)
Example opt_depth_inverse_unsorted :
  let w := mkWorld (heap Sym.model
                    ++ [Arr (A1 [Sym.Lit 1000; Sym.Lit 100; Sym.Lit 10])]) [] in
  (set_logEGeV Sym.self 15 w).1 = Raise ValueError ∧
  (opt_depth_inverse Sym.self (Sym.Lit (1 # 2)) (Sym.Lit 1)
     (set_logEGeV Sym.self 15 w).2).1 = Raise ValueError ∧
  (opt_depth Sym.self (PyScalar (Sym.Lit (1 # 2))) (PyScalar (Sym.Lit 1))
     (set_logEGeV Sym.self 15 w).2).1
  = Ok (A0 (tau_at (K := Sym.fitpack) Sym.fitted (Sym.Lit (1 # 2)) (Sym.Lit 1))).
Proof. repeat split. Qed.

(** * The readers *)

Section ReaderLaws.
Context {R : Type} {F : Float64 R} {K : Fitpack R}.
Implicit Types (w : world) (H : Host R).

Lemma io_bind_done {A B : Type} (m : IO A) (f : A → IO B) w (a : A) w' :
  m w = (Done a, w') → io_bind m f w = f a w'.
Proof. unfold io_bind. by intros ->. Qed.

Lemma io_bind_fail {A B : Type} (m : IO A) (f : A → IO B) w (e : pyexn) w' :
  m w = (Fail e, w') → io_bind m f w = (Fail e, w').
Proof. unfold io_bind. by intros ->. Qed.

Lemma new_array_done w (a : ndarray R) :
  new_array (Done a) w
  = (Done (length (heap w)), mkWorld (heap w ++ [Arr a]) (warnings w)).
Proof. done. Qed.

Lemma new_array_fail w (e : pyexn) : new_array (Fail e) w = (Fail e, w).
Proof. done. Qed.

Lemma drop_convert_row (conv : R → R) (rows : list (list R)) :
  drop 1 <$> (convert_row conv <$> rows) = drop 1 <$> rows.
Proof.
  rewrite <- list_fmap_compose. apply list_fmap_ext.
  by intros _ [|e r] _.
Qed.

Lemma heads_convert_row (conv : R → R) (rows : list (list R)) :
  omap (λ r : list R, r !! 0) (convert_row conv <$> rows)
  = conv <$> omap (λ r : list R, r !! 0) rows.
Proof.
  induction rows as [|[|e r] rows IH]; csimpl; [done|done|]. by rewrite IH.
Qed.

Lemma first_row_tail_convert (conv : R → R) (data : ndarray R) :
  first_row_tail (convert_energies conv data) = first_row_tail data.
Proof. by destruct data as [x|v|[|row0 rows]]. Qed.

Lemma lower_block_convert (conv : R → R) (data : ndarray R) :
  lower_block (convert_energies conv data) = lower_block data.
Proof.
  destruct data as [x|v|[|row0 rows]]; try done.
  cbn [convert_energies lower_block drop]. by rewrite !drop_0, drop_convert_row.
Qed.

Lemma first_column_tail_convert (conv : R → R) (data : ndarray R) :
  first_column_tail (convert_energies conv data)
  = map_result (fmap conv) (first_column_tail data).
Proof.
  destruct data as [x|v|[|row0 rows]]; try done.
  cbn [convert_energies first_column_tail column length].
  destruct (0 <? length row0); [|done].
  csimpl. destruct (row0 !! 0); cbn [map_result drop];
    by rewrite heads_convert_row, fmap_drop.
Qed.

(** Reading a table of a model with a conversion of the energies is
    [readascii] on the table of the converted energies. *)
Lemma read_table_as_readascii H H' (file file' : string) (conv : R → R) w :
  loadtxt (Host := H') file'
  = map_result (convert_energies conv) (loadtxt (Host := H) file) →
  read_table (H := H) file conv w = readascii (H := H') file' w.
Proof.
  intros Hload. unfold read_table, readascii. rewrite Hload.
  destruct (loadtxt file) as [data|e]; [|done]. cbn [map_result].
  rewrite !(io_bind_done (io_lift (Done _)) _ w _ w eq_refl).
  rewrite first_row_tail_convert, lower_block_convert, first_column_tail_convert.
  by destruct (first_column_tail data).
Qed.

(** X9. For each of the five table models, [readmodel] builds what
    [readascii] builds from the table of the model's file with the energies
    of its first column converted to GeV: [10 ** e] for kneiske, [e * 1e3]
    for dominguez, finke and inoue, [e / 1e3] for gilmore; the file is the
    one of the model in the directory [EBL_FILE_PATH]. *)
Theorem readmodel_as_readascii H H' (model file file' p : string)
    (conv : R → R) w :
  (model, (file, conv)) ∈ table_models →
  environ (Host := H) "EBL_FILE_PATH" = Some p →
  loadtxt (Host := H') file'
  = map_result (convert_energies conv)
      (loadtxt (Host := H) (path_join p file)) →
  readmodel (H := H) model w = readascii (H := H') file' w.
Proof.
  intros Hin Henv Hload. unfold table_models in Hin.
  repeat (apply elem_of_cons in Hin as [[= -> -> ->]|Hin]);
    [..|by apply elem_of_nil in Hin];
    unfold readmodel; rewrite Henv;
    exact (read_table_as_readascii H H' _ _ _ w Hload).
Qed.

Lemma first_column_tail_corner (c : R) (data : ndarray R) :
  first_column_tail (set_corner c data) = first_column_tail data.
Proof.
  by destruct data as [x|v|[|[|c0 row0] rows]].
Qed.

(** X10. [readascii] ignores the entry [[0,0]] of the table: two files whose
    tables differ in that entry only give the same result. *)
Theorem readascii_ignores_corner H H' (file file' : string) (c : R) w :
  loadtxt (Host := H') file'
  = map_result (set_corner c) (loadtxt (Host := H) file) →
  readascii (H := H') file' w = readascii (H := H) file w.
Proof.
  intros Hload. unfold readascii. rewrite Hload.
  destruct (loadtxt file) as [data|e]; [|done]. cbn [map_result].
  rewrite !(io_bind_done (io_lift (Done _)) _ w _ w eq_refl).
  rewrite first_column_tail_corner.
  by destruct data as [x|v|[|[|c0 row0] rows]].
Qed.

(** X11. With [EBL_FILE_PATH] set, a model name that is not one of the six
    names the code compares with makes [readmodel] raise [ValueError]; the
    store is left as it was. *)
Theorem readmodel_unknown H (model p : string) w :
  model ∉ model_names →
  environ (Host := H) "EBL_FILE_PATH" = Some p →
  readmodel (H := H) model w = (Fail (Core ValueError), w).
Proof.
  intros Hnot Henv. unfold readmodel. rewrite Henv.
  assert (∀ name, name ∈ model_names → String.eqb model name = false) as Hne.
  { intros name Hname. apply String.eqb_neq. by intros ->. }
  rewrite !Hne
    by (unfold model_names;
        repeat first [apply list_elem_of_here|apply list_elem_of_further]).
  done.
Qed.

(** With [EBL_FILE_PATH] not set, the handler of [readmodel] fails on the
    name [path] before it warns. *)
Lemma readmodel_without_path H (model : string) w :
  environ (Host := H) "EBL_FILE_PATH" = None →
  readmodel (H := H) model w = (Fail NameError, w).
Proof. intros Henv. unfold readmodel. by rewrite Henv. Qed.

(** X12. [readmodel('franceschini')] never returns an instance: whatever the
    environment and the file, it raises. *)
Theorem readmodel_franceschini_raises H w :
  ∃ e w', readmodel (H := H) "franceschini" w = (Fail e, w').
Proof.
  unfold readmodel. destruct (environ "EBL_FILE_PATH") as [p|]; [|by eexists _, _].
  cbn [String.eqb Ascii.eqb Bool.eqb orb]. unfold read_franceschini.
  unfold io_bind, io_lift, new_array, io_of, alloc, io_fail.
  repeat case_match; simplify_eq; by eexists _, _.
Qed.
End ReaderLaws.

Section ReadTable.
Context {R : Type} {F : Float64 R} {K : Fitpack R} {H : Host R}.
Implicit Types (w : world).

Lemma tails_zip (Es : list R) (taus : list (list R)) :
  length Es = length taus → drop 1 <$> zip_with cons Es taus = taus.
Proof.
  revert taus. induction Es as [|e Es IH]; intros [|t taus] Hlen; try done.
  csimpl. rewrite drop_0, IH; [done|]. simpl in Hlen. lia.
Qed.

Lemma heads_zip (Es : list R) (taus : list (list R)) :
  length Es = length taus →
  omap (λ r : list R, r !! 0) (zip_with cons Es taus) = Es.
Proof.
  revert taus. induction Es as [|e Es IH]; intros [|t taus] Hlen; try done.
  csimpl. rewrite IH; [done|]. simpl in Hlen. lia.
Qed.

(** X13. On a table with the redshifts [zs] in its first row, the energies
    [Es] in its first column and the optical depths [taus] of shape
    (number of energies, number of redshifts) between them, the shapes that
    [readascii] passes on agree: if FITPACK accepts the grids, [readascii]
    returns an instance whose surface is the one of its grids and whose
    properties read back [zs], the logarithms of [Es] and [taus]. *)
Theorem readascii_table (file : string) (c00 : R) (zs Es : list R)
    (taus : list (list R)) (s : Spline) w :
  loadtxt file = Done (A2 ((c00 :: zs) :: zip_with cons Es taus)) →
  has_shape taus (length Es) (length zs) →
  regrid (log10 <$> Es) zs taus 2 2 = Some s →
  ∃ self w' lz lE lt,
    readascii file w = (Done self, w') ∧
    consistent w' self ∧
    get_z self w' = (Ok lz, w') ∧
    get_logEGeV self w' = (Ok lE, w') ∧
    get_tau self w' = (Ok lt, w') ∧
    heap w' !! lz = Some (Arr (A1 zs)) ∧
    heap w' !! lE = Some (Arr (A1 (log10 <$> Es))) ∧
    heap w' !! lt = Some (Arr (A2 taus)).
Proof.
  intros Hload Hshape Hs. pose proof Hshape as [Hlen _].
  unfold readascii. rewrite Hload.
  rewrite (io_bind_done (io_lift (Done _)) _ w _ w eq_refl).
  cbn [first_row_tail lower_block first_column_tail column length drop
       map_result].
  rewrite !drop_0, tails_zip by done.
  replace (0 <? S (length zs)) with true by done. csimpl.
  rewrite drop_0, heads_zip by done.
  rewrite !(io_bind_done _ _ _ _ _ (new_array_done _ _)).
  cbn [heap warnings]. unfold io_of.
  set (w3 := mkWorld (((heap w ++ [Arr (A1 zs)]) ++ [Arr (A2 taus)])
                      ++ [Arr (A1 Es)]) (warnings w)).
  destruct (init_read_back w3 (length (heap w))
              (length ((heap w ++ [Arr (A1 zs)]) ++ [Arr (A2 taus)]))
              (length (heap w ++ [Arr (A1 zs)])) zs Es taus 2 2 s)
    as (self & w' & lz & lE & lt & Hinit & Hgz & HgE & Hgt & Hz & HE & Ht & _);
    try done; cbn [heap].
  - do 2 apply lookup_app_l_Some. by apply list_lookup_middle.
  - by apply list_lookup_middle.
  - apply lookup_app_l_Some. by apply list_lookup_middle.
  - exists self, w', lz, lE, lt. rewrite Hinit.
    repeat split; try done. by eapply init_consistent.
Qed.
End ReadTable.

Lemma readmodel_as_readascii_witness :
  readmodel (H := Disk.host) "dominguez" Disk.empty
  = readascii (H := Disk.host_GeV) "table_GeV.dat" Disk.empty.
Proof.
  apply (readmodel_as_readascii Disk.host Disk.host_GeV "dominguez"
           "tau_dominguez10.dat" "table_GeV.dat" "/data" (λ e, mul e e3)).
  - apply list_elem_of_further, list_elem_of_here.
  - reflexivity.
  - reflexivity.
Defined.

Lemma readascii_ignores_corner_witness :
  readascii
    (H := {| environ := environ (Host := Disk.host_GeV);
             loadtxt f :=
               map_result (set_corner (Sym.Lit 7))
                 (loadtxt (Host := Disk.host_GeV) f);
             loadtxt_usecols := loadtxt_usecols (Host := Disk.host_GeV) |})
    "table_GeV.dat" Disk.empty
  = readascii (H := Disk.host_GeV) "table_GeV.dat" Disk.empty.
Proof.
  apply (readascii_ignores_corner Disk.host_GeV _ "table_GeV.dat"
           "table_GeV.dat" (Sym.Lit 7)).
  reflexivity.
Defined.

Lemma readmodel_unknown_witness :
  readmodel (H := Disk.host) "inuoe" Disk.empty
  = (Fail (Core ValueError), Disk.empty).
Proof.
  apply (readmodel_unknown Disk.host "inuoe" "/data"); [|reflexivity].
  intros Hin. unfold model_names in Hin.
  repeat (apply elem_of_cons in Hin as [[=]|Hin]).
  by apply elem_of_nil in Hin.
Defined.

Lemma readascii_table_witness :
  ∃ self w' lz lE lt,
    readascii (H := Disk.host_GeV) "table_GeV.dat" Disk.empty = (Done self, w') ∧
    consistent w' self ∧
    get_z self w' = (Ok lz, w') ∧
    get_logEGeV self w' = (Ok lE, w') ∧
    get_tau self w' = (Ok lt, w') ∧
    heap w' !! lz = Some (Arr (A1 Sym.grid_z)) ∧
    heap w' !! lE
    = Some (Arr (A1 (log10 <$> [Sym.Times (Sym.Lit (1 # 100)) (Sym.Lit 1000);
                                Sym.Times (Sym.Lit (1 # 10)) (Sym.Lit 1000);
                                Sym.Times (Sym.Lit 1) (Sym.Lit 1000)]))) ∧
    heap w' !! lt = Some (Arr (A2 Sym.grid_tau)).
Proof.
  eapply (readascii_table (H := Disk.host_GeV) "table_GeV.dat" (Sym.Lit 0)
            Sym.grid_z _ Sym.grid_tau); try reflexivity.
  split; [reflexivity|]. by repeat constructor.
Defined.

Section Silent.
Context {R : Type} {F : Float64 R} {K : Fitpack R}.

End Silent.

Section References.
Context {R : Type} {F : Float64 R} {K : Fitpack R}.
Implicit Types (w : world) (o : OptDepth) (self l : loc).

Lemma get_after_rebuild w self o (kx ky : nat) :
  heap w !! self = Some (Obj o) →
  (get_z self (rebuild self kx ky w).2).1 = Ok (_z o) ∧
  (get_tau self (rebuild self kx ky w).2).1 = Ok (_tau o).
Proof.
  intros Hself.
  assert (self < length (heap w)) as Hlt by (by eapply lookup_lt_Some).
  unfold get_z, get_tau.
  destruct (rebuild_cases w self o kx ky Hself)
    as [(x & y & t & s & _ & _ & _ & _ & ->)|[e ->]]; cbn [snd].
  - erewrite !bind_ok by (apply loadObj_ok; by apply list_lookup_insert_eq).
    done.
  - by rewrite !(bind_ok _ _ _ _ _ (loadObj_ok _ _ _ Hself)).
Qed.

(** X15. The setters of [z] and [tau] keep the reference they are given, not
    a copy: whether the rebuild of the surface succeeds or raises, the
    property reads back the very array of the caller. *)
Theorem setter_keeps_reference w self o (v : loc) :
  heap w !! self = Some (Obj o) →
  (get_z self (set_z self v w).2).1 = Ok v ∧
  (get_tau self (set_tau self v w).2).1 = Ok v.
Proof.
  intros Hself.
  assert (self < length (heap w)) as Hlt by (by eapply lookup_lt_Some).
  split.
  - unfold set_z. rewrite (bind_ok _ _ _ _ _ (loadObj_ok _ _ _ Hself)).
    unfold bind at 1, store at 1.
    eapply (get_after_rebuild _ self (mkOptDepth v _ _ _)).
    by apply list_lookup_insert_eq.
  - unfold set_tau. rewrite (bind_ok _ _ _ _ _ (loadObj_ok _ _ _ Hself)).
    unfold bind at 1, store at 1.
    eapply (get_after_rebuild _ self (mkOptDepth _ _ v _)).
    by apply list_lookup_insert_eq.
Qed.
End References.

Lemma setter_keeps_reference_witness :
  (get_z Sym.self (set_z Sym.self 9 Sym.model).2).1 = Ok 9 ∧
  (get_tau Sym.self (set_tau Sym.self 9 Sym.model).2).1 = Ok 9.
Proof.
  apply (setter_keeps_reference Sym.model Sym.self Sym.instance 9).
  reflexivity.
Defined.

Section Bins.
Context {R : Type} {F : Float64 R} {K : Fitpack R}.
Implicit Types (w : world) (o : OptDepth) (self : loc).

Lemma broadcast2_row (row : list R) :
  length row ≠ 1 → broadcast2 1 1 [row] = Raise ValueError.
Proof.
  intros Hrow. unfold broadcast2, broadcast_rows, broadcast.
  by destruct row as [|x [|y row]].
Qed.

(** [opt_depth] on a 2-D array of one row that has not exactly one entry:
    the surface call returns a column for each entry of the row, or refuses
    the row; [tt] has one row of one entry, and the assignment to it
    raises. *)
Lemma opt_depth_2d_one_row w self o (z0 : R) (grid : list R) (z : R)
    (row : list R) :
  heap w !! self = Some (Obj o) →
  heap w !! _z o = Some (Arr (A1 (z0 :: grid))) →
  length row ≠ 1 →
  (opt_depth_2d self z [row] w).1 = Raise ValueError.
Proof.
  intros Hself Hgrid Hrow. unfold opt_depth_2d.
  unfold bind at 1, alloc at 1.
  erewrite bind_ok by (apply loadObj_ok; cbn [heap]; by apply lookup_app_l_Some).
  erewrite bind_ok by (apply load1_ok; cbn [heap]; by apply list_lookup_middle).
  erewrite bind_ok by (apply load1_ok; cbn [heap]; by apply lookup_app_l_Some).
  unfold first. unfold bind at 1, ret at 1.
  assert (Np.sort leb [z] = [z]) as -> by done.
  assert (Np.argsort leb [z] = [0]) as -> by done.
  unfold RBSpline_call_2d. cbn [length Nat.leb orb fmap list_fmap concat].
  rewrite app_nil_r.
  set (x := log10 <$> _).
  assert (length x ≠ 1) as Hx.
  { unfold x. by rewrite !length_fmap, sort_length. }
  pose proof (transpose_grid (bispev (tauSpline o)) x [z]) as Ht.
  cbn [length] in Ht.
  unfold RBSpline_call.
  destruct (existsb (λ x0 : R, ltb x0 z0) [z]);
    unfold bind at 1; [unfold warn at 1|unfold ret at 1];
    unfold bind at 1, alloc at 1; unfold bind at 1, alloc at 1;
    cbn [heap warnings];
    (destruct (no_descent x && no_descent [z]); [|done]);
    unfold bind at 1, lift at 1;
    (erewrite bind_ok by (apply load2_ok; cbn [heap]; by apply list_lookup_middle));
    rewrite Ht; cbn [fmap list_fmap];
    rewrite broadcast2_row by (by rewrite length_fmap);
    done.
Qed.

(** X16. On an instance with a redshift grid that is not empty, with at
    least one bin and a number [Esteps] of integration steps other than one,
    [opt_depth_Ebin] raises [ValueError] in the first round of its loop: it
    passes the list of the grids, which [np.exp] makes a 2-D array of one row
    of [Esteps] entries, and [opt_depth] then assigns a row of [Esteps]
    surface values to the one row of one entry of [tt]. *)
Theorem opt_depth_Ebin_raises w self o (z0 : R) (grid : list R) (z E E' : R)
    (rest : list R) (func : list (list R) → list (list R)) (Esteps : nat) :
  heap w !! self = Some (Obj o) →
  heap w !! _z o = Some (Arr (A1 (z0 :: grid))) →
  length (linspace (ln E) (ln E') Esteps) = Esteps →
  Esteps ≠ 1 →
  (opt_depth_Ebin opt_depth_2d self z (E :: E' :: rest) func Esteps w).1
  = Raise ValueError.
Proof.
  intros Hself Hgrid Hlen Hsteps. unfold opt_depth_Ebin.
  rewrite Ebin_loop_cons. cbn [app]. unfold exp2 at 1. cbn [fmap list_fmap].
  pose proof (opt_depth_2d_one_row w self o z0 grid z
                (exp <$> linspace (ln E) (ln E') Esteps) Hself Hgrid) as Hcall.
  rewrite length_fmap, Hlen in Hcall. specialize (Hcall Hsteps).
  unfold bind at 1 2.
  destruct (opt_depth_2d self z _ w) as [[t|e] w1]; [done|].
  by injection Hcall as ->.
Qed.
End Bins.

Lemma opt_depth_Ebin_raises_witness :
  (opt_depth_Ebin opt_depth_2d Sym.self (Sym.Lit (1 # 2))
     [Sym.Lit (1 # 10); Sym.Lit 1; Sym.Lit 10] (λ m, m) 50 Sym.model).1
  = Raise ValueError.
Proof.
  apply (opt_depth_Ebin_raises Sym.model Sym.self Sym.instance
           (Sym.Lit (1 # 10)) [Sym.Lit (1 # 2); Sym.Lit 1]);
    [reflexivity|reflexivity|reflexivity|lia].
Defined.

Section ReadmodelReturns.
Context {R : Type} {F : Float64 R} {K : Fitpack R} {H : Host R}.
Implicit Types (w : world).

Lemma io_bind_inv_done {A B : Type} (m : IO A) (f : A → IO B) w (b : B) w' :
  io_bind m f w = (Done b, w') →
  ∃ a w1, m w = (Done a, w1) ∧ f a w1 = (Done b, w').
Proof.
  unfold io_bind. destruct (m w) as [[a|e] w1]; [|done].
  intros Hf. by exists a, w1.
Qed.

Lemma io_of_inv_done {A : Type} (m : M A) w (a : A) w' :
  io_of m w = (Done a, w') → m w = (Ok a, w').
Proof. unfold io_of. destruct (m w) as [[a'|e] w1]; [|done]. by intros [= -> ->]. Qed.

Lemma read_table_done (file : string) (energy : R → R) w (self : loc) w' :
  read_table file energy w = (Done self, w') → consistent w' self.
Proof.
  unfold read_table. intros Hrun.
  apply io_bind_inv_done in Hrun as (data & w1 & _ & Hrun).
  apply io_bind_inv_done in Hrun as (z & w2 & _ & Hrun).
  apply io_bind_inv_done in Hrun as (tau & w3 & _ & Hrun).
  apply io_bind_inv_done in Hrun as (EGeV & w4 & _ & Hrun).
  apply io_of_inv_done in Hrun. by eapply init_consistent.
Qed.

(** X17. [readmodel] returns an instance only if [EBL_FILE_PATH] is set and
    the model is one of the five table models (kneiske, dominguez, finke,
    inoue, gilmore); the surface of the instance it returns is the one of
    its three grids. *)
Theorem readmodel_returns (model : string) w (self : loc) w' :
  readmodel model w = (Done self, w') →
  (∃ p, environ "EBL_FILE_PATH" = Some p) ∧
  model ∈ (table_models).*1 ∧
  consistent w' self.
Proof.
  unfold readmodel. destruct (environ "EBL_FILE_PATH") as [p|]; [|done].
  intros Hrun. split; [by exists p|].
  assert (∀ name, String.eqb model name = true →
                  name ∈ (table_models).*1 → model ∈ (table_models).*1) as Hin.
  { by intros name ->%String.eqb_eq. }
  destruct (String.eqb model "kneiske") eqn:Hk.
  { split; [apply (Hin _ Hk); apply list_elem_of_here|].
    exact (read_table_done (path_join p "tau_ebl_cmb_kneiske.dat") (power ten)
             w self w' Hrun). }
  destruct (String.eqb model "dominguez") eqn:Hd.
  { split; [apply (Hin _ Hd); do 1 apply list_elem_of_further;
            apply list_elem_of_here|].
    exact (read_table_done (path_join p "tau_dominguez10.dat") (λ e, mul e e3)
             w self w' Hrun). }
  destruct (String.eqb model "finke") eqn:Hf.
  { split; [apply (Hin _ Hf); do 2 apply list_elem_of_further;
            apply list_elem_of_here|].
    exact (read_table_done (path_join p "tau_modelC_Finke.txt") (λ e, mul e e3)
             w self w' Hrun). }
  cbn [orb] in Hrun.
  destruct (String.eqb model "franceschini") eqn:Hfr.
  { exfalso. revert Hrun. unfold read_franceschini.
    unfold io_bind, io_lift, new_array, io_of, alloc, io_fail.
    repeat case_match; simplify_eq; done. }
  destruct (String.eqb model "inoue") eqn:Hi.
  { split; [apply (Hin _ Hi); do 3 apply list_elem_of_further;
            apply list_elem_of_here|].
    exact (read_table_done _ _ w self w' Hrun). }
  destruct (String.eqb model "gilmore") eqn:Hg; [|done].
  split; [apply (Hin _ Hg); do 4 apply list_elem_of_further;
          apply list_elem_of_here|].
  exact (read_table_done _ _ w self w' Hrun).
Qed.
End ReadmodelReturns.

Lemma readmodel_returns_witness :
  (∃ p, environ (Host := Disk.host) "EBL_FILE_PATH" = Some p) ∧
  "dominguez"%string ∈ (table_models (R := Sym.num)).*1 ∧
  consistent (readmodel (H := Disk.host) "dominguez" Disk.empty).2 6.
Proof.
  apply (readmodel_returns (H := Disk.host) "dominguez" Disk.empty 6).
  reflexivity.
Defined.
